(** * peco: configuration loading (config.go)

    A shallow embedding of [config.go]: the style resolver
    ([stringsToStyle] and its four token tables), the configuration
    record with its constructor and JSON decoding ([NewConfig],
    [ReadFilename], [Style.UnmarshalJSON]) and the rc-file search
    ([locateRcfileIn], [LocateRcfile]). *)

From stdpp Require Import gmap strings list fin_maps.
From Stdlib Require Import ZArith Lia Ascii String.

Set Warnings "-register-all".

Local Open Scope Z_scope.
Local Open Scope string_scope.

(** ** termbox attributes

    [termbox.Attribute] is an unsigned 16-bit integer; the only operation
    config.go performs on it is bitwise or, which cannot leave the range,
    so it is embedded as [Z] with [Z.lor]. *)

Abbreviation Attribute := Z (only parsing).

(** The colour and emphasis constants belong to the imported package
    [github.com/nsf/termbox-go]; config.go only names them.  Their
    numeric values are therefore a parameter of the development. *)
Class Termbox := {
  ColorDefault : Attribute;
  ColorBlack : Attribute;
  ColorRed : Attribute;
  ColorGreen : Attribute;
  ColorYellow : Attribute;
  ColorBlue : Attribute;
  ColorMagenta : Attribute;
  ColorCyan : Attribute;
  ColorWhite : Attribute;
  AttrBold : Attribute;
  AttrUnderline : Attribute;
  AttrReverse : Attribute
}.

(** Style describes termbox styles *)
Record Style := mkStyle { fg : Attribute; bg : Attribute }.

Section StyleResolver.
Context `{Termbox}.

Definition stringToFg : gmap string Attribute :=
  list_to_map [
    ("default", ColorDefault);
    ("black", ColorBlack);
    ("red", ColorRed);
    ("green", ColorGreen);
    ("yellow", ColorYellow);
    ("blue", ColorBlue);
    ("magenta", ColorMagenta);
    ("cyan", ColorCyan);
    ("white", ColorWhite)
  ].

Definition stringToBg : gmap string Attribute :=
  list_to_map [
    ("on_default", ColorDefault);
    ("on_black", ColorBlack);
    ("on_red", ColorRed);
    ("on_green", ColorGreen);
    ("on_yellow", ColorYellow);
    ("on_blue", ColorBlue);
    ("on_magenta", ColorMagenta);
    ("on_cyan", ColorCyan);
    ("on_white", ColorWhite)
  ].

Definition stringToFgAttr : gmap string Attribute :=
  list_to_map [
    ("bold", AttrBold);
    ("underline", AttrUnderline);
    ("blink", AttrReverse)
  ].

Definition stringToBgAttr : gmap string Attribute :=
  list_to_map [
    ("blink", AttrBold)
  ].

(** Body of the first [for _, s := range raw] loop of [stringsToStyle]. *)
Definition colorStep (style : Style) (s : string) : Style :=
  let style :=
    match stringToFg !! s with
    | Some c => {| fg := c; bg := bg style |}
    | None => style
    end in
  match stringToBg !! s with
  | Some c => {| fg := fg style; bg := c |}
  | None => style
  end.

(** Body of the second [for _, s := range raw] loop of [stringsToStyle]. *)
Definition attrStep (style : Style) (s : string) : Style :=
  let style :=
    match stringToFgAttr !! s with
    | Some a => {| fg := Z.lor (fg style) a; bg := bg style |}
    | None => style
    end in
  match stringToBgAttr !! s with
  | Some a => {| fg := fg style; bg := Z.lor (bg style) a |}
  | None => style
  end.

Definition stringsToStyle (raw : list string) : Style :=
  let style := {| fg := ColorDefault; bg := ColorDefault |} in
  let style := foldl colorStep style raw in
  let style := foldl attrStep style raw in
  style.

End StyleResolver.

(** An instance for the examples, laid out as termbox-go's
    [api_common.go] lays its constants out: the colours are numbered from
    0 in the order of declaration, the emphasis attributes are single
    bits above them. *)
Definition termbox_go : Termbox := {|
  ColorDefault := 0;
  ColorBlack := 1;
  ColorRed := 2;
  ColorGreen := 3;
  ColorYellow := 4;
  ColorBlue := 5;
  ColorMagenta := 6;
  ColorCyan := 7;
  ColorWhite := 8;
  AttrBold := Z.shiftl 1 9;
  AttrUnderline := Z.shiftl 1 10;
  AttrReverse := Z.shiftl 1 11
|}.


(** ** Configuration *)

(** A Go map value is either [nil] ([None]) or an allocated table.
    Reading a [nil] map is allowed and finds nothing. *)
Abbreviation gomap V := (option (gmap string V)) (only parsing).

Definition map_index {V} (m : gomap V) (k : string) : option V :=
  match m with
  | Some t => t !! k
  | None => None
  end.

(** StyleSet holds styles for various sections *)
Record StyleSet := mkStyleSet {
  Basic : Style;
  SavedSelection : Style;
  Selected : Style;
  Query : Style;
  Matched : Style
}.

(** Config holds all the data that can be configured in the external
    configuration file.  The field [Style] of the source is [Style'] here,
    the name [Style] being taken by the type. *)
Record Config := mkConfig {
  Action : gomap (list string);
  Keymap : gomap string;
  Matcher : string;
  Style' : StyleSet;
  CustomMatcher : gomap (list string);
  Prompt : string
}.

(** Modelled from the spec: the constant [IgnoreCaseMatch] is declared in
    another file of the package; the spec gives the default matcher name
    as "IgnoreCase". *)
Definition IgnoreCaseMatch : string := "IgnoreCase".

Section Construction.
Context `{Termbox}.

Definition NewStyleSet : StyleSet := {|
  Basic := {| fg := ColorDefault; bg := ColorDefault |};
  SavedSelection := {| fg := Z.lor ColorBlack AttrBold; bg := ColorCyan |};
  Selected := {| fg := Z.lor ColorDefault AttrUnderline; bg := ColorMagenta |};
  Query := {| fg := ColorDefault; bg := ColorDefault |};
  Matched := {| fg := ColorCyan; bg := ColorDefault |}
|}.

(** Fields the composite literal does not mention get their zero value:
    [Action] and [CustomMatcher] are [nil] maps. *)
Definition NewConfig : Config := {|
  Action := None;
  Keymap := Some ∅;
  Matcher := IgnoreCaseMatch;
  Style' := NewStyleSet;
  CustomMatcher := None;
  Prompt := "QUERY>"
|}.

End Construction.

(** ** encoding/json

    [ReadFilename] hands the open file to [json.NewDecoder(f).Decode(c)].
    The decoder first reads one complete JSON value from the stream and
    rejects a text that is not one; only then does it store into the
    target.  The text level is abstracted here: a document is either
    rejected by that scan or is a JSON value, and the storing phase is
    written out for the types reachable from [Config]. *)

Inductive json :=
| JNull
| JBool (b : bool)
| JNumber (lit : string)
| JString (s : string)
| JArray (vs : list json)
| JObject (kvs : list (string * json)).

Inductive error :=
| PathError (op path : string)
| SyntaxError (msg : string)
| UnmarshalTypeError (value type : string)
| Errorf (msg : string).

Inductive document :=
| Malformed (err : error)
| Wellformed (v : json).

(** The word [UnmarshalTypeError.Value] uses for a JSON value. *)
Definition kindName (v : json) : string :=
  match v with
  | JNull => "null"
  | JBool _ => "bool"
  | JNumber _ => "number"
  | JString _ => "string"
  | JArray _ => "array"
  | JObject _ => "object"
  end.

(** [decodeState.saveError]: only the first saved error is kept. *)
Definition saveError (saved : option error) (err : error) : option error :=
  match saved with
  | None => Some err
  | Some _ => saved
  end.

(** Object keys are matched to struct fields by name, ignoring case.
    Letter case is folded per Unicode; all field names here are ASCII, and
    the only non-ASCII runes folding to ASCII letters are U+212A (Kelvin
    sign, UTF-8 E2 84 AA) and U+017F (long s, UTF-8 C5 BF). *)
Definition foldByte (c : ascii) : ascii :=
  let n := N_of_ascii c in
  if ((97 <=? n) && (n <=? 122))%N then ascii_of_N (n - 32) else c.

Fixpoint foldName (s : string) : string :=
  match s with
  | String "226"%char (String "132"%char (String "170"%char rest)) =>
    String "K"%char (foldName rest)
  | String "197"%char (String "191"%char rest) => String "S"%char (foldName rest)
  | String c rest => String (foldByte c) (foldName rest)
  | EmptyString => EmptyString
  end.

(** A string target: a JSON string is stored, [null] has no effect, any
    other value is a type error that is saved while decoding goes on. *)
Definition decode_string (v : json) (x : string) (saved : option error)
  : string * option error :=
  match v with
  | JString s => (s, saved)
  | JNull => (x, saved)
  | _ => (x, saveError saved (UnmarshalTypeError (kindName v) "string"))
  end.

(** A [[]string] target that is empty beforehand (every slice decoded
    into here is: a fresh map element, or [raw] in [UnmarshalJSON]):
    one element per array entry, each decoded from the zero string. *)
Fixpoint decode_elems (vs : list json) (saved : option error)
  : list string * option error :=
  match vs with
  | [] => ([], saved)
  | v :: vs =>
    let '(s, saved) := decode_string v "" saved in
    let '(l, saved) := decode_elems vs saved in
    (s :: l, saved)
  end.

Definition decode_strings (v : json) (saved : option error)
  : list string * option error :=
  match v with
  | JArray vs => decode_elems vs saved
  | JNull => ([], saved)
  | _ => ([], saveError saved (UnmarshalTypeError (kindName v) "[]string"))
  end.

(** A map target: an object is stored entry by entry into the existing
    table (allocated first when the map is nil), each element decoded
    from its zero value; [null] sets the map to nil. *)
Section DecodeMap.
Context {V : Type} (zero : V) (elem : json → V → option error → V * option error).
Context (type : string).

Fixpoint decode_entries (kvs : list (string * json)) (m : gmap string V)
    (saved : option error) : gmap string V * option error :=
  match kvs with
  | [] => (m, saved)
  | (k, v) :: kvs =>
    let '(x, saved) := elem v zero saved in
    decode_entries kvs (<[k := x]> m) saved
  end.

Definition decode_map (v : json) (x : gomap V) (saved : option error)
  : gomap V * option error :=
  match v with
  | JObject kvs =>
    let '(m, saved) := decode_entries kvs (default ∅ x) saved in
    (Some m, saved)
  | JNull => (None, saved)
  | _ => (x, saveError saved (UnmarshalTypeError (kindName v) type))
  end.

End DecodeMap.

(** A struct target: for every key in document order the matching field,
    if any, is decoded; an error returned by a field (as opposed to a
    saved one) stops the decoding at once. *)
Section DecodeStruct.
Context {T F : Type} (fields : list F) (name : F → string).
Context (store : F → json → T → option error → T * option error * option error).
Context (type : string).

Definition findField (key : string) : option F :=
  match List.find (λ f, bool_decide (name f = key)) fields with
  | Some f => Some f
  | None => List.find (λ f, bool_decide (foldName (name f) = foldName key)) fields
  end.

Fixpoint decode_fields (kvs : list (string * json)) (x : T)
    (saved : option error) : T * option error * option error :=
  match kvs with
  | [] => (x, saved, None)
  | (k, v) :: kvs =>
    match findField k with
    | None => decode_fields kvs x saved
    | Some f =>
      let '(x, saved, err) := store f v x saved in
      match err with
      | Some e => (x, saved, Some e)
      | None => decode_fields kvs x saved
      end
    end
  end.

Definition decode_struct (v : json) (x : T) (saved : option error)
  : T * option error * option error :=
  match v with
  | JObject kvs => decode_fields kvs x saved
  | JNull => (x, saved, None)
  | _ => (x, saveError saved (UnmarshalTypeError (kindName v) type), None)
  end.

End DecodeStruct.

(** [json.Unmarshal(buf, &raw)] with [raw := []string{}]. *)
Definition Unmarshal_strings (buf : json) : list string * option error :=
  decode_strings buf None.

Inductive StyleSetField := FBasic | FSavedSelection | FSelected | FQuery | FMatched.

Definition StyleSet_fields : list StyleSetField :=
  [FBasic; FSavedSelection; FSelected; FQuery; FMatched].

Definition StyleSet_name (f : StyleSetField) : string :=
  match f with
  | FBasic => "Basic"
  | FSavedSelection => "SavedSelection"
  | FSelected => "Selected"
  | FQuery => "Query"
  | FMatched => "Matched"
  end.

Inductive ConfigField := FAction | FKeymap | FMatcher | FStyle | FCustomMatcher | FPrompt.

Definition Config_fields : list ConfigField :=
  [FAction; FKeymap; FMatcher; FStyle; FCustomMatcher; FPrompt].

Definition Config_name (f : ConfigField) : string :=
  match f with
  | FAction => "Action"
  | FKeymap => "Keymap"
  | FMatcher => "Matcher"
  | FStyle => "Style"
  | FCustomMatcher => "CustomMatcher"
  | FPrompt => "Prompt"
  end.

Section Decoding.
Context `{Termbox}.

(** UnmarshalJSON satisfies json.RawMessage.  The receiver is passed in
    and the updated receiver returned with the error. *)
Definition UnmarshalJSON (s : Style) (buf : json) : Style * option error :=
  let '(raw, err) := Unmarshal_strings buf in
  match err with
  | Some e => (s, Some e)
  | None => (stringsToStyle raw, None)
  end.

(** [Style] implements [json.Unmarshaler], so the decoder hands every
    value met at a style slot to [UnmarshalJSON] and returns its error. *)
Definition StyleSet_store (f : StyleSetField) (v : json) (x : StyleSet)
    (saved : option error) : StyleSet * option error * option error :=
  match f with
  | FBasic =>
    let '(s, err) := UnmarshalJSON (Basic x) v in
    (mkStyleSet s (SavedSelection x) (Selected x) (Query x) (Matched x), saved, err)
  | FSavedSelection =>
    let '(s, err) := UnmarshalJSON (SavedSelection x) v in
    (mkStyleSet (Basic x) s (Selected x) (Query x) (Matched x), saved, err)
  | FSelected =>
    let '(s, err) := UnmarshalJSON (Selected x) v in
    (mkStyleSet (Basic x) (SavedSelection x) s (Query x) (Matched x), saved, err)
  | FQuery =>
    let '(s, err) := UnmarshalJSON (Query x) v in
    (mkStyleSet (Basic x) (SavedSelection x) (Selected x) s (Matched x), saved, err)
  | FMatched =>
    let '(s, err) := UnmarshalJSON (Matched x) v in
    (mkStyleSet (Basic x) (SavedSelection x) (Selected x) (Query x) s, saved, err)
  end.

Definition decode_StyleSet : json → StyleSet → option error → StyleSet * option error * option error :=
  decode_struct StyleSet_fields StyleSet_name StyleSet_store "peco.StyleSet".

Definition Config_store (f : ConfigField) (v : json) (c : Config)
    (saved : option error) : Config * option error * option error :=
  match f with
  | FAction =>
    let '(m, saved) :=
      decode_map [] (λ v _, decode_strings v) "map[string][]string" v (Action c) saved in
    (mkConfig m (Keymap c) (Matcher c) (Style' c) (CustomMatcher c) (Prompt c), saved, None)
  | FKeymap =>
    let '(m, saved) := decode_map "" decode_string "map[string]string" v (Keymap c) saved in
    (mkConfig (Action c) m (Matcher c) (Style' c) (CustomMatcher c) (Prompt c), saved, None)
  | FMatcher =>
    let '(s, saved) := decode_string v (Matcher c) saved in
    (mkConfig (Action c) (Keymap c) s (Style' c) (CustomMatcher c) (Prompt c), saved, None)
  | FStyle =>
    let '(ss, saved, err) := decode_StyleSet v (Style' c) saved in
    (mkConfig (Action c) (Keymap c) (Matcher c) ss (CustomMatcher c) (Prompt c), saved, err)
  | FCustomMatcher =>
    let '(m, saved) :=
      decode_map [] (λ v _, decode_strings v) "map[string][]string" v (CustomMatcher c) saved in
    (mkConfig (Action c) (Keymap c) (Matcher c) (Style' c) m (Prompt c), saved, None)
  | FPrompt =>
    let '(s, saved) := decode_string v (Prompt c) saved in
    (mkConfig (Action c) (Keymap c) (Matcher c) (Style' c) (CustomMatcher c) s, saved, None)
  end.

Definition decode_Config : json → Config → option error → Config * option error * option error :=
  decode_struct Config_fields Config_name Config_store "peco.Config".

(** [Decoder.Decode(c)]: a returned error wins over a saved one. *)
Definition Decode (f : document) (c : Config) : Config * option error :=
  match f with
  | Malformed err => (c, Some err)
  | Wellformed v =>
    let '(c, saved, err) := decode_Config v c None in
    (c, match err with Some e => Some e | None => saved end)
  end.

(** ReadFilename reads the config from the given file, and does the
    appropriate processing, if any.  [open] is [os.Open]: the content of
    the named file or the error of opening it.  The deferred [f.Close()]
    has no effect on the configuration or on the error returned. *)
Definition ReadFilename (open : string → document + error) (c : Config)
    (filename : string) : Config * option error :=
  match open filename with
  | inr err => (c, Some err)
  | inl f =>
    let '(c, err) := Decode f c in
    match err with
    | Some e => (c, Some e)
    | None => (c, None)
    end
  end.

End Decoding.

(** ** Locating the rc file

    [LocateRcfile] reads the process environment and the file system.
    These are gathered in a [World]; every access is recorded, in order,
    so that what a search consulted can be stated. *)

Inductive Event :=
| EvHomedir
| EvGetenv (key : string)
| EvStat (name : string).

Record World := {
  homedir : string * option error;
  environ : string → string;
  stat : string → option error
}.

Definition IO (A : Type) : Type := World → A * list Event.

#[global] Instance IO_ret : MRet IO := λ A x _, (x, []).

#[global] Instance IO_bind : MBind IO := λ A B f m w,
  let '(x, t1) := m w in
  let '(y, t2) := f x w in
  (y, (t1 ++ t2)%list).

(** [homedirFunc] is a package variable holding [homedir], which is
    defined in another file: its result is part of the world. *)
Definition homedirFunc : IO (string * option error) :=
  λ w, (homedir w, [EvHomedir]).

(** [os.Getenv] returns the empty string for an unset variable. *)
Definition Getenv (key : string) : IO string :=
  λ w, (environ w key, [EvGetenv key]).

(** [os.Stat], of which only the error is used. *)
Definition Stat (name : string) : IO (option error) :=
  λ w, (stat w name, [EvStat name]).

(** [strings.Split] for a separator of one byte. *)
Fixpoint Split (s : string) (sep : ascii) : list string :=
  match s with
  | EmptyString => [""]
  | String c rest =>
    if decide (c = sep) then "" :: Split rest sep
    else
      match Split rest sep with
      | x :: xs => String c x :: xs
      | [] => [String c ""]
      end
  end.

(** [filepath.Join] and [filepath.ListSeparator] differ between
    platforms, so the search is written over any choice of them. *)
Class Filepath := {
  Join : list string → string;
  ListSeparator : ascii
}.

Section Locate.
Context `{Filepath}.

Definition basename : string := "config.json".

Definition locateRcfileIn (dir : string) : IO (string * option error) :=
  let file := Join [dir; basename] in
  err ← Stat file;
  match err with
  | Some e => mret ("", Some e)
  | None => mret (file, None)
  end.

(** [_locateRcfileIn] is a package variable initialised to
    [locateRcfileIn]. *)
Definition _locateRcfileIn := locateRcfileIn.

(** One attempt of [LocateRcfile]: [Some file] stands for the
    [return file, nil] inside the [if err == nil]. *)
Definition tryDir (dir : string) : IO (option string) :=
  '(file, err) ← _locateRcfileIn dir;
  match err with
  | None => mret (Some file)
  | Some _ => mret None
  end.

(** The loop over the entries of [XDG_CONFIG_DIRS]. *)
Fixpoint tryDirs (dirs : list string) : IO (option string) :=
  match dirs with
  | [] => mret None
  | dir :: dirs =>
    found ← tryDir (Join [dir; "peco"]);
    match found with
    | Some file => mret (Some file)
    | None => tryDirs dirs
    end
  end.

(** LocateRcfile attempts to find the config file in various locations *)
Definition LocateRcfile : IO (string * option error) :=
  '(home, uErr) ← homedirFunc;
  dir ← Getenv "XDG_CONFIG_HOME";
  found ←
    (if decide (dir ≠ "") then tryDir (Join [dir; "peco"])
     else
       match uErr with
       | None => tryDir (Join [home; ".config"; "peco"])
       | Some _ => mret None
       end);
  match found with
  | Some file => mret (file, None)
  | None =>
    dirs ← Getenv "XDG_CONFIG_DIRS";
    found ←
      (if decide (dirs ≠ "") then tryDirs (Split dirs ListSeparator)
       else mret None);
    match found with
    | Some file => mret (file, None)
    | None =>
      found ←
        match uErr with
        | None => tryDir (Join [home; ".peco"])
        | Some _ => mret None
        end;
      match found with
      | Some file => mret (file, None)
      | None => mret ("", Some (Errorf "error: Config file not found"))
      end
    end
  end.

(** The search order in the words of the documentation: the file names
    tried, in order.  Steps 1 and 2 exclude each other; steps 3 and 4
    follow whichever was chosen. *)
Definition step1or2 (w : World) : list string :=
  if decide (environ w "XDG_CONFIG_HOME" ≠ "")
  then [Join [Join [environ w "XDG_CONFIG_HOME"; "peco"]; basename]]
  else
    match homedir w with
    | (home, None) => [Join [Join [home; ".config"; "peco"]; basename]]
    | (_, Some _) => []
    end.

Definition step3 (w : World) : list string :=
  if decide (environ w "XDG_CONFIG_DIRS" ≠ "")
  then (λ dir, Join [Join [dir; "peco"]; basename])
         <$> Split (environ w "XDG_CONFIG_DIRS") ListSeparator
  else [].

Definition step4 (w : World) : list string :=
  match homedir w with
  | (home, None) => [Join [Join [home; ".peco"]; basename]]
  | (_, Some _) => []
  end.

Definition candidates (w : World) : list string :=
  (step1or2 w ++ step3 w ++ step4 w)%list.

End Locate.

(** The candidates up to and including the first that exists. *)
Fixpoint attempted (w : World) (files : list string) : list string :=
  match files with
  | [] => []
  | f :: files =>
    match stat w f with
    | None => [f]
    | Some _ => f :: attempted w files
    end
  end.

Definition firstExisting (w : World) (files : list string) : option string :=
  List.find (λ f, bool_decide (stat w f = None)) files.

(** The names that were passed to [os.Stat], in order. *)
Definition stats (t : list Event) : list string :=
  omap (λ e, match e with EvStat f => Some f | _ => None end) t.

(** Whether an environment variable was read. *)
Definition reads (key : string) (t : list Event) : Prop := EvGetenv key ∈ t.

(** The Unix instance: [filepath.Clean] works on the elements between
    slashes, dropping empty and [.] elements and cancelling [..] against
    the element before it; [filepath.Join] cleans the arguments, from the
    first non-empty one on, joined by slashes. *)
Fixpoint cleanElems (rooted : bool) (elems out : list string) : list string :=
  match elems with
  | [] => rev out
  | e :: elems =>
    if decide (e = "" ∨ e = ".") then cleanElems rooted elems out
    else if decide (e = "..") then
      match out with
      | top :: out' =>
        if decide (top = "..") then cleanElems rooted elems (".." :: out)
        else cleanElems rooted elems out'
      | [] => cleanElems rooted elems (if rooted then [] else [".."])
      end
    else cleanElems rooted elems (e :: out)
  end.

Definition Clean (path : string) : string :=
  let rooted := match path with String "/"%char _ => true | _ => false end in
  let out := cleanElems rooted (Split path "/"%char) [] in
  let s := (if rooted then "/" else "") +:+ String.concat "/" out in
  if decide (s = "") then "." else s.

Fixpoint unix_Join (elem : list string) : string :=
  match elem with
  | [] => ""
  | e :: rest =>
    if decide (e ≠ "") then Clean (String.concat "/" elem)
    else unix_Join rest
  end.

Definition unix : Filepath := {| Join := unix_Join; ListSeparator := ":" |}.


(** ** Vocabulary of the statements about styles *)

Section StyleVocabulary.
Context `{Termbox}.

(** The style [stringsToStyle] starts from. *)
Definition defaultStyle : Style := {| fg := ColorDefault; bg := ColorDefault |}.

(** The style after the first loop of [stringsToStyle]. *)
Definition firstPass (raw : list string) : Style := foldl colorStep defaultStyle raw.

(** Everything the tokens of [raw] contribute through an emphasis table. *)
Definition emphasis (tbl : gmap string Attribute) (raw : list string) : Attribute :=
  foldr (λ s a, Z.lor (default 0 (tbl !! s)) a) 0 raw.

Definition isColor (s : string) : Prop :=
  is_Some (stringToFg !! s) ∨ is_Some (stringToBg !! s).

Definition recognized (s : string) : Prop :=
  is_Some (stringToFg !! s) ∨ is_Some (stringToBg !! s) ∨
  is_Some (stringToFgAttr !! s) ∨ is_Some (stringToBgAttr !! s).

#[global] Instance isColor_dec s : Decision (isColor s).
Proof. unfold isColor. apply _. Defined.

#[global] Instance recognized_dec s : Decision (recognized s).
Proof. unfold recognized. apply _. Defined.

(** The base colour of a packed attribute is what remains once the
    emphasis bits are taken away.  This reads a colour back only when no
    colour value uses an emphasis bit, which [TermboxLayout] states. *)
Definition AttrMask : Attribute := Z.lor AttrBold (Z.lor AttrUnderline AttrReverse).

Definition baseColor (a : Attribute) : Attribute := Z.ldiff a AttrMask.

Definition colors : list Attribute :=
  [ColorDefault; ColorBlack; ColorRed; ColorGreen; ColorYellow;
   ColorBlue; ColorMagenta; ColorCyan; ColorWhite].

Class TermboxLayout : Prop :=
  colors_clear : Forall (λ c, Z.land c AttrMask = 0) colors.

End StyleVocabulary.

(** ** Vocabulary of the statements about configurations *)

(** All three map fields hold an allocated, empty table. *)
Definition allMapsEmpty (c : Config) : Prop :=
  Action c = Some ∅ ∧ Keymap c = Some ∅ ∧ CustomMatcher c = Some ∅.



Definition slot (f : StyleSetField) (x : StyleSet) : Style :=
  match f with
  | FBasic => Basic x
  | FSavedSelection => SavedSelection x
  | FSelected => Selected x
  | FQuery => Query x
  | FMatched => Matched x
  end.

(** A style slot given as a sequence of tokens. *)
Definition tokens (raw : list string) : json := JArray (JString <$> raw).

(** ** Vocabulary of the statements about the search *)

Section SearchVocabulary.
Context `{Filepath}.

(** What the documented search returns: the first candidate that
    exists, or the error. *)
Definition searchResult (w : World) : string * option error :=
  match firstExisting w (candidates w) with
  | Some file => (file, None)
  | None => ("", Some (Errorf "error: Config file not found"))
  end.

(** What the documented search consults: the home directory and
    [XDG_CONFIG_HOME] at the start, the candidate of step 1 or 2, and,
    only when that one is missing, [XDG_CONFIG_DIRS] and the candidates of
    steps 3 and 4 up to the first that exists. *)
Definition searchTrace (w : World) : list Event :=
  ([EvHomedir; EvGetenv "XDG_CONFIG_HOME"] ++
   (EvStat <$> attempted w (step1or2 w)) ++
   match firstExisting w (step1or2 w) with
   | Some _ => []
   | None => EvGetenv "XDG_CONFIG_DIRS" :: (EvStat <$> attempted w (step3 w ++ step4 w))
   end)%list.

End SearchVocabulary.

(** A Unix world for the examples: the home directory is [/home/u],
    the two variables are as given, and the files of [present] exist. *)
Definition unixWorld (xdgHome xdgDirs : string) (present : list string) : World := {|
  homedir := ("/home/u", None);
  environ := λ key,
    if decide (key = "XDG_CONFIG_HOME") then xdgHome
    else if decide (key = "XDG_CONFIG_DIRS") then xdgDirs
    else "";
  stat := λ name,
    if decide (name ∈ present) then None else Some (PathError "stat" name)
|}.

(** ** Vocabulary of the further statements *)

Section RangeVocabulary.
Context `{Termbox}.

(** Every constant of the package is a value of the 16-bit type. *)
Definition TermboxRange : Prop :=
  Forall (λ a, 0 ≤ a < 2 ^ 16)
    (colors ++ [AttrBold; AttrUnderline; AttrReverse])%list.

End RangeVocabulary.

(** An attribute that is present or not. *)
Definition flag (b : bool) (a : Attribute) : Attribute := if b then a else 0.

(** The token sequence that names a foreground colour, a background
    colour and a choice of emphasis. *)
Definition spell (n1 n2 : string) (b u r : bool) : list string :=
  ([n1; "on_" +:+ n2] ++ (if b then ["bold"] else []) ++
   (if u then ["underline"] else []) ++ (if r then ["blink"] else []))%list.

(** No key of the object selects the style slot [g]. *)
Definition absentSlot (g : StyleSetField) (kvs : list (string * json)) : Prop :=
  Forall (λ kv, findField StyleSet_fields StyleSet_name kv.1 ≠ Some g) kvs.

(** The object in which every default style is spelled in tokens. *)
Definition defaultStyleObject : json :=
  JObject [
    ("Basic", tokens []);
    ("SavedSelection", tokens ["black"; "bold"; "on_cyan"]);
    ("Selected", tokens ["underline"; "on_magenta"]);
    ("Query", tokens []);
    ("Matched", tokens ["cyan"])
  ].

(** The world [w] with another result of [homedir]. *)
Definition withHomedir (r : string * option error) (w : World) : World :=
  {| homedir := r; environ := environ w; stat := stat w |}.

(** The bytes of a string. *)
Fixpoint bytes (s : string) : list ascii :=
  match s with
  | EmptyString => []
  | String c rest => c :: bytes rest
  end.

(** * Properties of the style resolver *)

(** Bit-level equalities between [Z.lor], [Z.land] and [Z.ldiff] terms:
    compare bit by bit, using the hypotheses at the same bit. *)
Ltac bitwise :=
  apply Z.bits_inj; intros ?n;
  repeat match goal with
  | Hx : _ = _ :> Z |- _ =>
    apply (f_equal (λ x, Z.testbit x n)) in Hx
  end;
  repeat (rewrite ?Z.land_spec, ?Z.lor_spec, ?Z.ldiff_spec, ?Z.bits_0 in * );
  repeat match goal with
  | |- context [Z.testbit ?a n] => destruct (Z.testbit a n)
  end; simpl in *; congruence.

(** A successful lookup in a table written as a literal is one of its
    entries: one goal per entry, key and value substituted. *)
Ltac table_cases H :=
  apply elem_of_list_to_map_2 in H;
  repeat (apply elem_of_cons in H as [H|H]; [injection H as -> ->|]);
  [..|by apply elem_of_nil in H].

Lemma filter_none {A} (P : A → Prop) `{∀ x, Decision (P x)} (l : list A) :
  (∀ x, x ∈ l → ¬ P x) → filter P l = [].
Proof.
  induction l as [|x l IH]; intros Hl; [done|].
  rewrite filter_cons. case_decide as Hx.
  - destruct (Hl x); [left|done].
  - apply IH. intros y Hy. apply Hl. by right.
Qed.

Lemma lor_keeps_bits (x y a : Z) : Z.land x a = a → Z.land (Z.lor x y) a = a.
Proof. intros Hx. bitwise. Qed.

Lemma lor_keeps_bits_r (x y a : Z) : Z.land y a = a → Z.land (Z.lor x y) a = a.
Proof. intros Hy. bitwise. Qed.

Lemma ldiff_lor_clear (c e m : Z) :
  Z.land c m = 0 → Z.ldiff e m = 0 → Z.ldiff (Z.lor c e) m = c.
Proof. intros Hc He. bitwise. Qed.

Section StyleTheory.
Context `{Termbox}.

(** *** The first pass *)

Lemma colorStep_fg st s :
  fg (colorStep st s) = default (fg st) (stringToFg !! s).
Proof. unfold colorStep. destruct (stringToFg !! s), (stringToBg !! s); reflexivity. Qed.

Lemma colorStep_bg st s :
  bg (colorStep st s) = default (bg st) (stringToBg !! s).
Proof. unfold colorStep. destruct (stringToFg !! s), (stringToBg !! s); reflexivity. Qed.

Lemma Style_eq (s t : Style) : fg s = fg t → bg s = bg t → s = t.
Proof. destruct s, t; simpl; congruence. Qed.

Lemma colorStep_other st s : ¬ isColor s → colorStep st s = st.
Proof.
  intros Hs. apply Style_eq; rewrite ?colorStep_fg, ?colorStep_bg.
  - destruct (stringToFg !! s) eqn:E; [|done]. destruct Hs; left; eauto.
  - destruct (stringToBg !! s) eqn:E; [|done]. destruct Hs; right; eauto.
Qed.

Lemma colorPass_fg_keep post st :
  Forall (λ u, stringToFg !! u = None) post → fg (foldl colorStep st post) = fg st.
Proof.
  intros Hpost. revert st. induction Hpost as [|u post Hu _ IH]; intros st; simpl; [done|].
  by rewrite IH, colorStep_fg, Hu.
Qed.

Lemma colorPass_bg_keep post st :
  Forall (λ u, stringToBg !! u = None) post → bg (foldl colorStep st post) = bg st.
Proof.
  intros Hpost. revert st. induction Hpost as [|u post Hu _ IH]; intros st; simpl; [done|].
  by rewrite IH, colorStep_bg, Hu.
Qed.

Lemma colorPass_fg_last pre t post c st :
  stringToFg !! t = Some c → Forall (λ u, stringToFg !! u = None) post →
  fg (foldl colorStep st (pre ++ t :: post)) = c.
Proof.
  intros Ht Hpost. rewrite foldl_app. simpl.
  by rewrite colorPass_fg_keep, colorStep_fg, Ht.
Qed.

Lemma colorPass_bg_last pre t post c st :
  stringToBg !! t = Some c → Forall (λ u, stringToBg !! u = None) post →
  bg (foldl colorStep st (pre ++ t :: post)) = c.
Proof.
  intros Ht Hpost. rewrite foldl_app. simpl.
  by rewrite colorPass_bg_keep, colorStep_bg, Ht.
Qed.

Lemma colorPass_filter (P : string → Prop) `{∀ s, Decision (P s)} raw st :
  (∀ s, isColor s → P s) →
  foldl colorStep st (filter P raw) = foldl colorStep st raw.
Proof.
  intros HP. revert st. induction raw as [|s raw IH]; intros st; [done|].
  rewrite filter_cons. case_decide; simpl.
  - apply IH.
  - rewrite IH, colorStep_other; [done|]. auto.
Qed.

(** *** The second pass *)

Lemma attrStep_fg st s :
  fg (attrStep st s) = Z.lor (fg st) (default 0 (stringToFgAttr !! s)).
Proof.
  unfold attrStep.
  destruct (stringToFgAttr !! s), (stringToBgAttr !! s); simpl; by rewrite ?Z.lor_0_r.
Qed.

Lemma attrStep_bg st s :
  bg (attrStep st s) = Z.lor (bg st) (default 0 (stringToBgAttr !! s)).
Proof.
  unfold attrStep.
  destruct (stringToFgAttr !! s), (stringToBgAttr !! s); simpl; by rewrite ?Z.lor_0_r.
Qed.

Lemma attrStep_other st s :
  stringToFgAttr !! s = None → stringToBgAttr !! s = None → attrStep st s = st.
Proof. intros Hf Hb. unfold attrStep. by rewrite Hf, Hb. Qed.

Lemma attrPass_filter (P : string → Prop) `{∀ s, Decision (P s)} raw st :
  (∀ s, is_Some (stringToFgAttr !! s) ∨ is_Some (stringToBgAttr !! s) → P s) →
  foldl attrStep st (filter P raw) = foldl attrStep st raw.
Proof.
  intros HP. revert st. induction raw as [|s raw IH]; intros st; [done|].
  rewrite filter_cons. case_decide as Hs; simpl; [apply IH|].
  rewrite IH, attrStep_other; [done| |].
  - destruct (stringToFgAttr !! s) eqn:E; [|done]. destruct Hs. apply HP. left. eauto.
  - destruct (stringToBgAttr !! s) eqn:E; [|done]. destruct Hs. apply HP. right. eauto.
Qed.

Lemma attrPass_fg raw st :
  fg (foldl attrStep st raw) = Z.lor (fg st) (emphasis stringToFgAttr raw).
Proof.
  revert st. induction raw as [|s raw IH]; intros st; simpl.
  - by rewrite Z.lor_0_r.
  - by rewrite IH, attrStep_fg, Z.lor_assoc.
Qed.

Lemma attrPass_bg raw st :
  bg (foldl attrStep st raw) = Z.lor (bg st) (emphasis stringToBgAttr raw).
Proof.
  revert st. induction raw as [|s raw IH]; intros st; simpl.
  - by rewrite Z.lor_0_r.
  - by rewrite IH, attrStep_bg, Z.lor_assoc.
Qed.

Lemma stringsToStyle_fg raw :
  fg (stringsToStyle raw) = Z.lor (fg (firstPass raw)) (emphasis stringToFgAttr raw).
Proof. unfold stringsToStyle. by rewrite attrPass_fg. Qed.

Lemma stringsToStyle_bg raw :
  bg (stringsToStyle raw) = Z.lor (bg (firstPass raw)) (emphasis stringToBgAttr raw).
Proof. unfold stringsToStyle. by rewrite attrPass_bg. Qed.

Lemma emphasis_perm tbl raw raw' : raw ≡ₚ raw' → emphasis tbl raw = emphasis tbl raw'.
Proof.
  induction 1 as [|s l l' _ IH|s t l|l l' l'' _ IH1 _ IH2]; simpl.
  - done.
  - by rewrite IH.
  - rewrite !Z.lor_assoc. f_equal. apply Z.lor_comm.
  - by rewrite IH1.
Qed.

Lemma emphasis_none tbl raw :
  Forall (λ s, tbl !! s = None) raw → emphasis tbl raw = 0.
Proof. induction 1 as [|s raw Hs _ IH]; simpl; [done|]. by rewrite Hs, IH. Qed.

Lemma emphasis_blink raw :
  "blink" ∈ raw → Z.land (emphasis stringToBgAttr raw) AttrBold = AttrBold.
Proof.
  induction raw as [|s raw IH]; intros Hin; [by apply elem_of_nil in Hin|].
  apply elem_of_cons in Hin as [<-|Hin]; simpl.
  - apply lor_keeps_bits. change (stringToBgAttr !! "blink") with (Some AttrBold).
    apply Z.land_diag.
  - apply lor_keeps_bits_r. auto.
Qed.

(** *** Reading the base colour back *)

Lemma stringToFg_colors s c : stringToFg !! s = Some c → c ∈ colors.
Proof. intros Hs. table_cases Hs; unfold colors; set_solver. Qed.

Lemma stringToBg_colors s c : stringToBg !! s = Some c → c ∈ colors.
Proof. intros Hs. table_cases Hs; unfold colors; set_solver. Qed.

Lemma AttrBold_in_mask : Z.ldiff AttrBold AttrMask = 0.
Proof. unfold AttrMask. bitwise. Qed.

Lemma AttrUnderline_in_mask : Z.ldiff AttrUnderline AttrMask = 0.
Proof. unfold AttrMask. bitwise. Qed.

Lemma AttrReverse_in_mask : Z.ldiff AttrReverse AttrMask = 0.
Proof. unfold AttrMask. bitwise. Qed.

Lemma ldiff_lor_0 (x y m : Z) :
  Z.ldiff x m = 0 → Z.ldiff y m = 0 → Z.ldiff (Z.lor x y) m = 0.
Proof. intros Hx Hy. bitwise. Qed.

Lemma emphasis_in_mask tbl raw :
  (∀ s a, tbl !! s = Some a → Z.ldiff a AttrMask = 0) →
  Z.ldiff (emphasis tbl raw) AttrMask = 0.
Proof.
  intros Htbl. induction raw as [|s raw IH]; simpl; [done|].
  apply ldiff_lor_0; [|done].
  destruct (tbl !! s) eqn:E; simpl; [eauto|done].
Qed.

Lemma stringToFgAttr_in_mask s a :
  stringToFgAttr !! s = Some a → Z.ldiff a AttrMask = 0.
Proof.
  intros Hs. table_cases Hs;
    auto using AttrBold_in_mask, AttrUnderline_in_mask, AttrReverse_in_mask.
Qed.

Lemma stringToBgAttr_in_mask s a :
  stringToBgAttr !! s = Some a → Z.ldiff a AttrMask = 0.
Proof.
  intros Hs. table_cases Hs. apply AttrBold_in_mask.
Qed.

Lemma firstPass_fg_colors raw : fg (firstPass raw) ∈ colors.
Proof.
  unfold firstPass. assert (fg defaultStyle ∈ colors) as Hd by (simpl; set_solver).
  revert Hd. generalize defaultStyle. induction raw as [|s raw IH]; intros st Hst; simpl; [done|].
  apply IH. rewrite colorStep_fg. destruct (stringToFg !! s) eqn:E; simpl; [|done].
  eauto using stringToFg_colors.
Qed.

Lemma firstPass_bg_colors raw : bg (firstPass raw) ∈ colors.
Proof.
  unfold firstPass. assert (bg defaultStyle ∈ colors) as Hd by (simpl; set_solver).
  revert Hd. generalize defaultStyle. induction raw as [|s raw IH]; intros st Hst; simpl; [done|].
  apply IH. rewrite colorStep_bg. destruct (stringToBg !! s) eqn:E; simpl; [|done].
  eauto using stringToBg_colors.
Qed.

Lemma color_clear `{!TermboxLayout} c : c ∈ colors → Z.land c AttrMask = 0.
Proof. revert c. apply Forall_forall, colors_clear. Qed.

Lemma baseColor_fg `{!TermboxLayout} raw :
  baseColor (fg (stringsToStyle raw)) = fg (firstPass raw).
Proof.
  rewrite stringsToStyle_fg. apply ldiff_lor_clear.
  - apply color_clear, firstPass_fg_colors.
  - apply emphasis_in_mask, stringToFgAttr_in_mask.
Qed.

Lemma baseColor_bg `{!TermboxLayout} raw :
  baseColor (bg (stringsToStyle raw)) = bg (firstPass raw).
Proof.
  rewrite stringsToStyle_bg. apply ldiff_lor_clear.
  - apply color_clear, firstPass_bg_colors.
  - apply emphasis_in_mask, stringToBgAttr_in_mask.
Qed.

End StyleTheory.

Lemma termbox_go_layout : @TermboxLayout termbox_go.
Proof. unfold TermboxLayout. repeat constructor. Qed.

(** ** The claims about the style resolver *)

Section StyleClaims.
Context `{Termbox}.

(** C4: for every token sequence, the base colour of each channel in the
    resulting style is the colour named by the last token of the sequence
    that is in that channel's colour table, and the default colour when
    there is no such token; ["red"; "blue"] gives the foreground base
    colour blue.  The base colour is read back from the
    packed attribute, which presupposes that colour values and emphasis
    bits do not overlap. *)
Theorem last_color_wins `{!TermboxLayout} (raw : list string) :
  (∀ pre t post c, raw = (pre ++ t :: post)%list →
     stringToFg !! t = Some c → Forall (λ u, stringToFg !! u = None) post →
     baseColor (fg (stringsToStyle raw)) = c) ∧
  (∀ pre t post c, raw = (pre ++ t :: post)%list →
     stringToBg !! t = Some c → Forall (λ u, stringToBg !! u = None) post →
     baseColor (bg (stringsToStyle raw)) = c) ∧
  (Forall (λ u, stringToFg !! u = None) raw →
     baseColor (fg (stringsToStyle raw)) = ColorDefault) ∧
  (Forall (λ u, stringToBg !! u = None) raw →
     baseColor (bg (stringsToStyle raw)) = ColorDefault) ∧
  baseColor (fg (stringsToStyle ["red"; "blue"])) = ColorBlue.
Proof.
  split_and!.
  - intros pre t post c -> Ht Hpost. rewrite baseColor_fg.
    by apply colorPass_fg_last.
  - intros pre t post c -> Ht Hpost. rewrite baseColor_bg.
    by apply colorPass_bg_last.
  - intros Hnone. rewrite baseColor_fg. by apply colorPass_fg_keep.
  - intros Hnone. rewrite baseColor_bg. by apply colorPass_bg_keep.
  - rewrite baseColor_fg. reflexivity.
Qed.

(** C5: the second pass combines the emphasis of every token onto the
    channel by bitwise or, on top of what the first pass left, and the
    base colour stays the one of the first pass; ["red"; "bold"] gives
    red combined with bold, and so does ["bold"; "red"]: rearranging the
    tokens without changing the order among the colour tokens does not
    change the style. *)
Theorem emphasis_keeps_base `{!TermboxLayout} (raw : list string) :
  fg (stringsToStyle raw) = Z.lor (fg (firstPass raw)) (emphasis stringToFgAttr raw) ∧
  bg (stringsToStyle raw) = Z.lor (bg (firstPass raw)) (emphasis stringToBgAttr raw) ∧
  baseColor (fg (stringsToStyle raw)) = fg (firstPass raw) ∧
  baseColor (bg (stringsToStyle raw)) = bg (firstPass raw) ∧
  (∀ raw', raw' ≡ₚ raw → filter isColor raw' = filter isColor raw →
     stringsToStyle raw' = stringsToStyle raw) ∧
  stringsToStyle ["red"; "bold"] = mkStyle (Z.lor ColorRed AttrBold) ColorDefault ∧
  stringsToStyle ["bold"; "red"] = mkStyle (Z.lor ColorRed AttrBold) ColorDefault.
Proof.
  split_and!.
  - apply stringsToStyle_fg.
  - apply stringsToStyle_bg.
  - apply baseColor_fg.
  - apply baseColor_bg.
  - intros raw' Hperm Hcol.
    assert (firstPass raw' = firstPass raw) as Hfirst.
    { unfold firstPass.
      rewrite <- (colorPass_filter isColor raw'), <- (colorPass_filter isColor raw) by auto.
      by rewrite Hcol. }
    apply Style_eq.
    + rewrite !stringsToStyle_fg, Hfirst. f_equal. by apply emphasis_perm.
    + rewrite !stringsToStyle_bg, Hfirst. f_equal. by apply emphasis_perm.
  - reflexivity.
  - reflexivity.
Qed.

(** C7: no token is an error, the resolver being a total function; the
    tokens that are in none of the four tables do not influence the
    result, and a sequence made of such tokens only resolves to the
    all-default style. *)
Theorem unrecognized_ignored (raw : list string) :
  stringsToStyle raw = stringsToStyle (filter recognized raw) ∧
  ((∀ s, s ∈ raw → ¬ recognized s) → stringsToStyle raw = defaultStyle).
Proof.
  assert (stringsToStyle raw = stringsToStyle (filter recognized raw)) as Hfilter.
  { unfold stringsToStyle.
    rewrite (colorPass_filter recognized), (attrPass_filter recognized); [done| |].
    - unfold recognized. tauto.
    - unfold recognized, isColor. tauto. }
  split; [done|]. intros Hnone. rewrite Hfilter.
  replace (filter recognized raw) with (@nil string); [done|].
  symmetry. by apply filter_none.
Qed.

(** C9: the background-emphasis table maps "blink" to the bold
    attribute, so every token sequence containing "blink" has the bits of
    the bold attribute set in the resulting background. *)
Theorem bg_blink_is_bold (raw : list string) :
  stringToBgAttr !! "blink" = Some AttrBold ∧
  ("blink" ∈ raw → Z.land (bg (stringsToStyle raw)) AttrBold = AttrBold).
Proof.
  split; [reflexivity|]. intros Hin.
  rewrite stringsToStyle_bg. by apply lor_keeps_bits_r, emphasis_blink.
Qed.

End StyleClaims.

Lemma last_color_wins_witness :
  @baseColor termbox_go (fg (@stringsToStyle termbox_go ["default"; "red"; "blue"; "bold"])) = 5.
Proof.
  refine (proj1 (@last_color_wins termbox_go termbox_go_layout
                   ["default"; "red"; "blue"; "bold"])
            ["default"; "red"] "blue" ["bold"] 5 _ _ _).
  - reflexivity.
  - reflexivity.
  - repeat constructor.
Defined.

Lemma emphasis_keeps_base_witness :
  @stringsToStyle termbox_go ["bold"; "red"; "on_blue"]
  = @stringsToStyle termbox_go ["red"; "bold"; "on_blue"].
Proof.
  refine (proj1 (proj2 (proj2 (proj2 (proj2
            (@emphasis_keeps_base termbox_go termbox_go_layout
               ["red"; "bold"; "on_blue"])))))
            ["bold"; "red"; "on_blue"] _ _).
  - apply perm_swap.
  - vm_compute. reflexivity.
Defined.

Lemma unrecognized_ignored_witness :
  @stringsToStyle termbox_go ["reverse"; "on_purple"; "Bold"] = @defaultStyle termbox_go.
Proof.
  apply (proj2 (@unrecognized_ignored termbox_go ["reverse"; "on_purple"; "Bold"])).
  intros s Hs Hr. apply (bool_decide_pack _) in Hr.
  set_unfold in Hs. destruct Hs as [->|[->|[->|[]]]]; vm_compute in Hr; exact Hr.
Defined.

Lemma bg_blink_is_bold_witness :
  Z.land (bg (@stringsToStyle termbox_go ["on_red"; "blink"])) 512 = 512.
Proof.
  apply (proj2 (@bg_blink_is_bold termbox_go ["on_red"; "blink"])).
  set_solver.
Defined.

(** * Properties of construction and decoding *)

Section ConfigTheory.
Context `{Termbox}.

(** *** Token sequences at a style slot *)

Lemma decode_elems_strings raw saved :
  decode_elems (JString <$> raw) saved = (raw, saved).
Proof.
  induction raw as [|s raw IH]; [done|].
  rewrite fmap_cons. cbn [decode_elems decode_string]. by rewrite IH.
Qed.

Lemma UnmarshalJSON_tokens s raw :
  UnmarshalJSON s (tokens raw) = (stringsToStyle raw, None).
Proof.
  unfold UnmarshalJSON, Unmarshal_strings, tokens. cbn [decode_strings].
  by rewrite decode_elems_strings.
Qed.

Lemma StyleSet_store_tokens f raw x saved :
  StyleSet_store f (tokens raw) x saved =
    (match f with
     | FBasic => mkStyleSet (stringsToStyle raw) (SavedSelection x) (Selected x) (Query x) (Matched x)
     | FSavedSelection => mkStyleSet (Basic x) (stringsToStyle raw) (Selected x) (Query x) (Matched x)
     | FSelected => mkStyleSet (Basic x) (SavedSelection x) (stringsToStyle raw) (Query x) (Matched x)
     | FQuery => mkStyleSet (Basic x) (SavedSelection x) (Selected x) (stringsToStyle raw) (Matched x)
     | FMatched => mkStyleSet (Basic x) (SavedSelection x) (Selected x) (Query x) (stringsToStyle raw)
     end, saved, None).
Proof. destruct f; unfold StyleSet_store; by rewrite UnmarshalJSON_tokens. Qed.

(** *** Saved errors are never forgotten *)











(** *** What storing into one field touches *)









Lemma ReadFilename_opened open c filename f :
  open filename = inl f → ReadFilename open c filename = Decode f c.
Proof.
  intros Hopen. unfold ReadFilename. rewrite Hopen.
  by destruct (Decode f c) as [c' [e|]].
Qed.

End ConfigTheory.

(** ** The claims about construction and decoding *)

Section ConfigClaims.
Context `{Termbox}.

(** C1, as the code has it: [NewConfig] allocates an empty [Keymap] and
    leaves [Action] and [CustomMatcher] nil; looking a key up in any of the
    three finds nothing and does not fail; the matcher is "IgnoreCase",
    the prompt "QUERY>", and the style set holds the five default styles
    of [NewStyleSet]. *)
Theorem NewConfig_defaults :
  Keymap NewConfig = Some ∅ ∧
  Action NewConfig = None ∧
  CustomMatcher NewConfig = None ∧
  (∀ k, map_index (Action NewConfig) k = None ∧
        map_index (Keymap NewConfig) k = None ∧
        map_index (CustomMatcher NewConfig) k = None) ∧
  Matcher NewConfig = "IgnoreCase" ∧
  Prompt NewConfig = "QUERY>" ∧
  Style' NewConfig =
    {| Basic := mkStyle ColorDefault ColorDefault;
       SavedSelection := mkStyle (Z.lor ColorBlack AttrBold) ColorCyan;
       Selected := mkStyle (Z.lor ColorDefault AttrUnderline) ColorMagenta;
       Query := mkStyle ColorDefault ColorDefault;
       Matched := mkStyle ColorCyan ColorDefault |}.
Proof.
  split_and!; try reflexivity.
  intros k. split_and!; reflexivity.
Qed.

(** C2, as the code has it: when the file cannot be opened, when its
    content is not a well-formed JSON text, or when the document is
    neither an object nor null, [ReadFilename] fails and the
    configuration is the one before the call. *)
Theorem ReadFilename_failure_unchanged (open : string → document + error)
    (c : Config) (filename : string) :
  (∃ e, open filename = inr e) ∨
  (∃ e, open filename = inl (Malformed e)) ∨
  (∃ v, open filename = inl (Wellformed v) ∧ v ≠ JNull ∧ ∀ kvs, v ≠ JObject kvs) →
  ∃ e, ReadFilename open c filename = (c, Some e).
Proof.
  intros [[e Hopen]|[[e Hopen]|(v & Hopen & Hnull & Hobj)]].
  - exists e. unfold ReadFilename. by rewrite Hopen.
  - exists e. by rewrite (ReadFilename_opened _ _ _ _ Hopen).
  - rewrite (ReadFilename_opened _ _ _ _ Hopen).
    destruct v; simpl; try by eauto.
    by destruct (Hobj kvs).
Qed.


(** C10: a style slot given as a token sequence becomes the style the
    resolver computes for that sequence from the all-default base,
    whatever the slot held before (and so does any slot value that
    [UnmarshalJSON] accepts, for the sequence read from it), and the other
    slots are not touched;
    the empty sequence therefore sets a slot to the all-default style:
    decoding it at [Selected] or [SavedSelection] of a new configuration
    replaces the constructed default, which differs from the all-default
    style as soon as magenta, resp. cyan, is not the default colour. *)
Theorem style_slot_replaced (f : StyleSetField) (x : StyleSet) (s : Style)
    (raw : list string) (saved : option error) :
  UnmarshalJSON s (tokens raw) = (stringsToStyle raw, None) ∧
  (∀ buf, (UnmarshalJSON s buf).2 = None →
     UnmarshalJSON s buf = (stringsToStyle (Unmarshal_strings buf).1, None)) ∧
  slot f (StyleSet_store f (tokens raw) x saved).1.1 = stringsToStyle raw ∧
  (∀ g, g ≠ f → slot g (StyleSet_store f (tokens raw) x saved).1.1 = slot g x) ∧
  UnmarshalJSON s (tokens []) = (defaultStyle, None) ∧
  Decode (Wellformed (JObject [("Style", JObject [("Selected", tokens [])])])) NewConfig =
    (mkConfig None (Some ∅) "IgnoreCase"
       (mkStyleSet (Basic NewStyleSet) (SavedSelection NewStyleSet) defaultStyle
          (Query NewStyleSet) (Matched NewStyleSet))
       None "QUERY>", None) ∧
  Decode (Wellformed (JObject [("Style", JObject [("SavedSelection", tokens [])])])) NewConfig =
    (mkConfig None (Some ∅) "IgnoreCase"
       (mkStyleSet (Basic NewStyleSet) defaultStyle (Selected NewStyleSet)
          (Query NewStyleSet) (Matched NewStyleSet))
       None "QUERY>", None) ∧
  (ColorMagenta ≠ ColorDefault → defaultStyle ≠ Selected NewStyleSet) ∧
  (ColorCyan ≠ ColorDefault → defaultStyle ≠ SavedSelection NewStyleSet).
Proof.
  split_and!.
  - apply UnmarshalJSON_tokens.
  - intros buf. unfold UnmarshalJSON.
    by destruct (Unmarshal_strings buf) as [raw' [e|]].
  - rewrite StyleSet_store_tokens. by destruct f.
  - intros g Hne. rewrite StyleSet_store_tokens. by destruct f, g.
  - exact (UnmarshalJSON_tokens s []).
  - reflexivity.
  - reflexivity.
  - intros Hne Heq. apply (f_equal bg) in Heq. simpl in Heq. congruence.
  - intros Hne Heq. apply (f_equal bg) in Heq. simpl in Heq. congruence.
Qed.

End ConfigClaims.

(** Against C1 as stated: in the configuration [NewConfig] returns, the
    map fields are not all allocated empty maps ([Action] is nil). *)
Lemma NewConfig_maps_not_all_empty : ¬ allMapsEmpty (@NewConfig termbox_go).
Proof. intros [HAction _]. discriminate HAction. Qed.

(** Against C2 as stated: the document {"Prompt": "> ", "Matcher": 5} is
    well-formed; decoding it fails on the number given for [Matcher], and
    the prompt has been overwritten by then. *)
Lemma ReadFilename_failure_mutates :
  let open := λ _ : string,
    inl (Wellformed (JObject [("Prompt", JString "> "); ("Matcher", JNumber "5")])) in
  (@ReadFilename termbox_go open (@NewConfig termbox_go) "config.json").2
    = Some (UnmarshalTypeError "number" "string") ∧
  (@ReadFilename termbox_go open (@NewConfig termbox_go) "config.json").1
    ≠ @NewConfig termbox_go.
Proof.
  split; [reflexivity|].
  intros Heq. apply (f_equal Prompt) in Heq. discriminate Heq.
Qed.

(** The same through the error path of [UnmarshalJSON]: a style slot
    that is not a token sequence stops the decoding after the prompt has
    been stored and before the matcher is reached. *)
Example ReadFilename_style_error_mutates :
  let open := λ _ : string,
    inl (Wellformed (JObject [("Prompt", JString "> ");
                              ("Style", JObject [("Basic", JString "red")]);
                              ("Matcher", JString "Regexp")])) in
  @ReadFilename termbox_go open (@NewConfig termbox_go) "config.json"
    = (mkConfig None (Some ∅) "IgnoreCase" (@NewStyleSet termbox_go) None "> ",
       Some (UnmarshalTypeError "string" "[]string")).
Proof. reflexivity. Qed.

Lemma ReadFilename_failure_unchanged_witness :
  ∃ e, @ReadFilename termbox_go (λ _, inl (Wellformed (JArray [JString "Prompt"])))
         (@NewConfig termbox_go) "config.json" = (@NewConfig termbox_go, Some e).
Proof.
  apply ReadFilename_failure_unchanged.
  right. right. exists (JArray [JString "Prompt"]).
  split; [reflexivity|]. split; [discriminate|]. intros kvs. discriminate.
Defined.


Lemma style_slot_replaced_witness :
  @defaultStyle termbox_go ≠ Selected (@NewStyleSet termbox_go).
Proof.
  refine (proj1 (proj2 (proj2 (proj2 (proj2 (proj2 (proj2 (proj2
    (@style_slot_replaced termbox_go FSelected (@NewStyleSet termbox_go)
       (@defaultStyle termbox_go) [] None)))))))) _).
  discriminate.
Defined.

(** * Properties of the search *)

Lemma stats_EvStat files : stats (EvStat <$> files) = files.
Proof.
  induction files as [|f files IH]; [done|].
  change (stats (EvStat <$> f :: files)) with (f :: stats (EvStat <$> files)).
  by rewrite IH.
Qed.

Lemma stats_app t1 t2 : stats (t1 ++ t2) = (stats t1 ++ stats t2)%list.
Proof. apply omap_app. Qed.

Lemma firstExisting_app w l1 l2 :
  firstExisting w (l1 ++ l2) =
    match firstExisting w l1 with
    | Some f => Some f
    | None => firstExisting w l2
    end.
Proof.
  unfold firstExisting. induction l1 as [|f l1 IH]; simpl; [done|].
  by destruct (bool_decide (stat w f = None)).
Qed.

Lemma attempted_app w l1 l2 :
  attempted w (l1 ++ l2) =
    match firstExisting w l1 with
    | Some _ => attempted w l1
    | None => (l1 ++ attempted w l2)%list
    end.
Proof.
  unfold firstExisting. induction l1 as [|f l1 IH]; simpl; [done|].
  destruct (stat w f) as [e|] eqn:Hf; simpl; [|done].
  rewrite IH. by destruct (List.find _ l1).
Qed.

Lemma attempted_all w files :
  firstExisting w files = None → attempted w files = files.
Proof.
  unfold firstExisting. induction files as [|f files IH]; simpl; [done|].
  destruct (stat w f) as [e|]; simpl; [|done].
  intros Hnone. by rewrite IH.
Qed.

Lemma firstExisting_None w files :
  (∀ f, f ∈ files → stat w f ≠ None) → firstExisting w files = None.
Proof.
  unfold firstExisting. induction files as [|f files IH]; intros Hall; simpl; [done|].
  rewrite bool_decide_eq_false_2 by (apply Hall; left).
  apply IH. intros g Hg. apply Hall. by right.
Qed.

Section SearchTheory.
Context `{Filepath}.

Lemma attempted_hit w file :
  firstExisting w (step1or2 w) = Some file → attempted w (step1or2 w) = step1or2 w.
Proof.
  unfold step1or2, firstExisting. destruct (decide _); simpl.
  - by destruct (stat w _).
  - destruct (homedir w) as [home [e|]]; simpl; [done|]. by destruct (stat w _).
Qed.

Lemma tryDir_run dir w :
  tryDir dir w = (firstExisting w [Join [dir; basename]],
                  EvStat <$> attempted w [Join [dir; basename]]).
Proof.
  unfold tryDir, _locateRcfileIn, locateRcfileIn, firstExisting, mbind, IO_bind, Stat.
  simpl. by destruct (stat w (Join [dir; basename])).
Qed.

Lemma tryDirs_run dirs w :
  let files := (λ dir, Join [Join [dir; "peco"]; basename]) <$> dirs in
  tryDirs dirs w = (firstExisting w files, EvStat <$> attempted w files).
Proof.
  induction dirs as [|dir dirs IH]; [done|].
  simpl in *. unfold mbind, IO_bind in *. rewrite tryDir_run.
  unfold firstExisting in *. simpl.
  destruct (stat w (Join [Join [dir; "peco"]; basename])); simpl; [|done].
  by rewrite IH.
Qed.

Lemma step1or2_run w home uErr :
  homedir w = (home, uErr) →
  (if decide (environ w "XDG_CONFIG_HOME" ≠ "")
   then tryDir (Join [environ w "XDG_CONFIG_HOME"; "peco"])
   else
     match uErr with
     | None => tryDir (Join [home; ".config"; "peco"])
     | Some _ => mret None
     end) w
  = (firstExisting w (step1or2 w), EvStat <$> attempted w (step1or2 w)).
Proof.
  intros Hhome. unfold step1or2. rewrite Hhome.
  destruct (decide _); [apply tryDir_run|].
  destruct uErr; [done|apply tryDir_run].
Qed.

Lemma step3_run w :
  (if decide (environ w "XDG_CONFIG_DIRS" ≠ "")
   then tryDirs (Split (environ w "XDG_CONFIG_DIRS") ListSeparator)
   else mret None) w
  = (firstExisting w (step3 w), EvStat <$> attempted w (step3 w)).
Proof. unfold step3. destruct (decide _); [apply tryDirs_run|done]. Qed.

Lemma step4_run w home uErr :
  homedir w = (home, uErr) →
  match uErr with
  | None => tryDir (Join [home; ".peco"])
  | Some _ => mret None
  end w
  = (firstExisting w (step4 w), EvStat <$> attempted w (step4 w)).
Proof.
  intros Hhome. unfold step4. rewrite Hhome.
  destruct uErr; [done|apply tryDir_run].
Qed.

Lemma LocateRcfile_run w : LocateRcfile w = (searchResult w, searchTrace w).
Proof.
  unfold LocateRcfile, searchResult, searchTrace, candidates.
  rewrite !firstExisting_app, attempted_app.
  cbv beta iota delta [mbind IO_bind homedirFunc Getenv].
  destruct (homedir w) as [home uErr] eqn:Hhome.
  rewrite (step1or2_run w home uErr Hhome).
  destruct (firstExisting w (step1or2 w)) as [file|]; [done|].
  rewrite step3_run.
  destruct (firstExisting w (step3 w)) as [file|] eqn:Hstep3.
  { cbv beta iota delta [mret IO_ret]. by rewrite app_nil_r. }
  rewrite (step4_run w home uErr Hhome), (attempted_all w (step3 w) Hstep3).
  destruct (firstExisting w (step4 w)) as [file|];
    cbv beta iota delta [mret IO_ret]; by rewrite app_nil_r, fmap_app.
Qed.

End SearchTheory.

(** ** The claims about the search *)

Lemma stats_searchTrace `{Filepath} w :
  stats (searchTrace w) = attempted w (candidates w).
Proof.
  unfold searchTrace, candidates.
  rewrite (attempted_app w (step1or2 w)), !stats_app, stats_EvStat.
  destruct (firstExisting w (step1or2 w)) as [file|] eqn:Hstep.
  - apply app_nil_r.
  - change (stats (EvGetenv "XDG_CONFIG_DIRS" :: ?t)) with (stats t).
    by rewrite stats_EvStat, (attempted_all _ _ Hstep).
Qed.

(** C3: [LocateRcfile] returns what the documented search returns and
    consults what it consults.  The files it looks at are the candidates
    in the documented order, up to the first that exists: at most one
    candidate from steps 1 and 2, chosen by whether [XDG_CONFIG_HOME] is
    non-empty, and, whichever that was, when it is missing, the entries of
    [XDG_CONFIG_DIRS] in list order and then the home fallback.  On Unix,
    with [XDG_CONFIG_HOME=/tmp/a] and [/tmp/a/peco/config.json] existing,
    that path is returned; [XDG_CONFIG_DIRS] is not read and no other file
    is looked at, as after any hit in step 1 or 2. *)
Theorem LocateRcfile_order :
  (∀ (fp : Filepath) (w : World),
     LocateRcfile w = (searchResult w, searchTrace w) ∧
     stats (LocateRcfile w).2 = attempted w (candidates w) ∧
     (List.length (step1or2 w) ≤ 1)%nat ∧
     (firstExisting w (step1or2 w) = None →
        stats (LocateRcfile w).2 = (step1or2 w ++ attempted w (step3 w ++ step4 w))%list) ∧
     (is_Some (firstExisting w (step1or2 w)) →
        stats (LocateRcfile w).2 = step1or2 w ∧
        ¬ reads "XDG_CONFIG_DIRS" (LocateRcfile w).2)) ∧
  (∀ w : World,
     environ w "XDG_CONFIG_HOME" = "/tmp/a" →
     stat w "/tmp/a/peco/config.json" = None →
     @LocateRcfile unix w =
       ("/tmp/a/peco/config.json", None,
        [EvHomedir; EvGetenv "XDG_CONFIG_HOME"; EvStat "/tmp/a/peco/config.json"])).
Proof.
  split.
  - intros fp w. rewrite LocateRcfile_run. split_and!.
    + done.
    + apply stats_searchTrace.
    + unfold step1or2. destruct (decide _); [simpl; lia|].
      destruct (homedir w) as [home [e|]]; simpl; lia.
    + intros Hstep. cbn [snd]. rewrite stats_searchTrace. unfold candidates.
      by rewrite attempted_app, Hstep.
    + intros [file Hstep]. cbn [snd]. split.
      * rewrite stats_searchTrace. unfold candidates.
        rewrite attempted_app, Hstep. by apply (attempted_hit w file).
      * unfold reads, searchTrace. rewrite Hstep, app_nil_r.
        intros Hin. apply elem_of_app in Hin as [Hin|Hin].
        -- set_unfold in Hin. by destruct Hin as [|[|]].
        -- apply list_elem_of_fmap_1 in Hin as (f & Hf & _). discriminate Hf.
  - intros w Hhome Hstat. rewrite LocateRcfile_run.
    unfold searchResult, searchTrace, candidates.
    rewrite !firstExisting_app.
    assert (@step1or2 unix w = ["/tmp/a/peco/config.json"]) as ->.
    { unfold step1or2. by rewrite Hhome. }
    unfold firstExisting. simpl. by rewrite Hstat.
Qed.

(** C8: when none of the candidate files exists, [LocateRcfile] returns
    the empty path and the error "Config file not found"; this is so in
    particular when neither [XDG_CONFIG_HOME] nor [XDG_CONFIG_DIRS] is
    set and the home directory, if it is known, has neither
    [.config/peco/config.json] nor [.peco/config.json]. *)
Theorem LocateRcfile_not_found `{Filepath} (w : World) :
  ((∀ f, f ∈ candidates w → stat w f ≠ None) →
   (LocateRcfile w).1 = ("", Some (Errorf "error: Config file not found"))) ∧
  (environ w "XDG_CONFIG_HOME" = "" →
   environ w "XDG_CONFIG_DIRS" = "" →
   (∀ home, homedir w = (home, None) →
      stat w (Join [Join [home; ".config"; "peco"]; basename]) ≠ None ∧
      stat w (Join [Join [home; ".peco"]; basename]) ≠ None) →
   (LocateRcfile w).1 = ("", Some (Errorf "error: Config file not found"))).
Proof.
  assert ((∀ f, f ∈ candidates w → stat w f ≠ None) →
          (LocateRcfile w).1 = ("", Some (Errorf "error: Config file not found")))
    as Hmain.
  { intros Hnone. rewrite LocateRcfile_run. unfold searchResult. simpl.
    by rewrite firstExisting_None. }
  split; [done|]. intros Hhome Hdirs Hfiles. apply Hmain.
  unfold candidates, step1or2, step3, step4. rewrite Hhome, Hdirs.
  destruct (homedir w) as [home [e|]] eqn:Hh; simpl.
  - intros f Hf. by apply elem_of_nil in Hf.
  - destruct (Hfiles home eq_refl) as [Hconfig Hdot].
    intros f Hf. set_unfold in Hf. by destruct Hf as [->|[->|[]]].
Qed.

Lemma LocateRcfile_order_witness :
  @LocateRcfile unix
    (unixWorld "/tmp/a" "/etc/xdg" ["/tmp/a/peco/config.json"; "/etc/xdg/peco/config.json"])
  = ("/tmp/a/peco/config.json", None,
     [EvHomedir; EvGetenv "XDG_CONFIG_HOME"; EvStat "/tmp/a/peco/config.json"]).
Proof.
  apply (proj2 LocateRcfile_order); reflexivity.
Defined.

Lemma LocateRcfile_not_found_witness :
  (@LocateRcfile unix (unixWorld "" "" ["/home/u/.pecorc"])).1
  = ("", Some (Errorf "error: Config file not found")).
Proof.
  apply (proj2 (@LocateRcfile_not_found unix (unixWorld "" "" ["/home/u/.pecorc"]))).
  - reflexivity.
  - reflexivity.
  - intros home [= <-]. split; vm_compute; discriminate.
Defined.

Example LocateRcfile_falls_through :
  @LocateRcfile unix
    (unixWorld "/tmp/a" "/etc/xdg:/opt/etc" ["/home/u/.peco/config.json"])
  = ("/home/u/.peco/config.json", None,
     [EvHomedir; EvGetenv "XDG_CONFIG_HOME"; EvStat "/tmp/a/peco/config.json";
      EvGetenv "XDG_CONFIG_DIRS"; EvStat "/etc/xdg/peco/config.json";
      EvStat "/opt/etc/peco/config.json"; EvStat "/home/u/.peco/config.json"]).
Proof. reflexivity. Qed.

(** * Further properties of the style resolver *)

Lemma lor_range (a b : Z) :
  0 ≤ a < 2 ^ 16 → 0 ≤ b < 2 ^ 16 → 0 ≤ Z.lor a b < 2 ^ 16.
Proof.
  intros Ha Hb.
  assert (0 ≤ Z.lor a b)%Z as Hnonneg by (apply Z.lor_nonneg; lia).
  split; [done|].
  destruct (Z.eq_dec (Z.lor a b) 0) as [->|Hne]; [lia|].
  apply Z.log2_lt_pow2; [lia|].
  rewrite Z.log2_lor by lia. apply Z.max_lub_lt.
  - destruct (Z.eq_dec a 0) as [->|?]; [done|]. apply Z.log2_lt_pow2; lia.
  - destruct (Z.eq_dec b 0) as [->|?]; [done|]. apply Z.log2_lt_pow2; lia.
Qed.

Lemma lor_absorb (v e : Z) : Z.lor v (Z.lor v e) = Z.lor v e.
Proof. by rewrite Z.lor_assoc, Z.lor_diag. Qed.

Section StyleFurther.
Context `{Termbox}.

Lemma range_color (Hrange : TermboxRange) c : c ∈ colors → 0 ≤ c < 2 ^ 16.
Proof.
  intros Hc. unfold TermboxRange in Hrange. rewrite Forall_forall in Hrange.
  apply Hrange, elem_of_app. by left.
Qed.

Lemma range_emphasis (Hrange : TermboxRange) tbl raw :
  (∀ s a, tbl !! s = Some a → a ∈ [AttrBold; AttrUnderline; AttrReverse]) →
  0 ≤ emphasis tbl raw < 2 ^ 16.
Proof.
  intros Htbl. induction raw as [|s raw IH]; simpl; [lia|].
  apply lor_range; [|done].
  destruct (tbl !! s) as [a|] eqn:Hs; simpl; [|lia].
  unfold TermboxRange in Hrange. rewrite Forall_forall in Hrange.
  apply Hrange, elem_of_app. right. eauto.
Qed.

Lemma stringToFgAttr_values s a :
  stringToFgAttr !! s = Some a → a ∈ [AttrBold; AttrUnderline; AttrReverse].
Proof. intros Hs. table_cases Hs; set_solver. Qed.

Lemma stringToBgAttr_values s a :
  stringToBgAttr !! s = Some a → a ∈ [AttrBold; AttrUnderline; AttrReverse].
Proof. intros Hs. table_cases Hs; set_solver. Qed.

Lemma emphasis_app tbl l1 l2 :
  emphasis tbl (l1 ++ l2) = Z.lor (emphasis tbl l1) (emphasis tbl l2).
Proof.
  induction l1 as [|s l1 IH]; simpl; [done|]. by rewrite IH, Z.lor_assoc.
Qed.

Lemma emphasis_elem tbl s raw :
  s ∈ raw → Z.lor (default 0 (tbl !! s)) (emphasis tbl raw) = emphasis tbl raw.
Proof.
  induction raw as [|u raw IH]; intros Hin; [by apply elem_of_nil in Hin|].
  apply elem_of_cons in Hin as [<-|Hin]; simpl.
  - apply lor_absorb.
  - rewrite Z.lor_assoc, (Z.lor_comm _ (default 0 (tbl !! u))), <- Z.lor_assoc.
    by rewrite IH.
Qed.

Lemma emphasis_subset tbl l1 l2 :
  (∀ s, s ∈ l1 → s ∈ l2) →
  Z.lor (emphasis tbl l1) (emphasis tbl l2) = emphasis tbl l2.
Proof.
  induction l1 as [|s l1 IH]; intros Hsub; simpl; [done|].
  rewrite <- Z.lor_assoc, IH.
  - apply emphasis_elem, Hsub. by left.
  - intros u Hu. apply Hsub. by right.
Qed.

Lemma emphasis_has_bits tbl s a raw :
  tbl !! s = Some a → s ∈ raw → Z.land (emphasis tbl raw) a = a.
Proof.
  intros Hs Hin. rewrite <- (emphasis_elem tbl s raw Hin), Hs. simpl.
  apply lor_keeps_bits, Z.land_diag.
Qed.

(** The colour a channel has after the first loop, from any start. *)
Lemma colorPass_fg_val l st :
  fg (foldl colorStep st l) = default (fg st) (last (omap (stringToFg !!.) l)).
Proof.
  revert st. induction l as [|s l IH]; intros st; simpl; [done|].
  rewrite IH, colorStep_fg.
  destruct (stringToFg !! s) as [c|]; simpl; [|done].
  rewrite last_cons. by destruct (last _).
Qed.

Lemma colorPass_bg_val l st :
  bg (foldl colorStep st l) = default (bg st) (last (omap (stringToBg !!.) l)).
Proof.
  revert st. induction l as [|s l IH]; intros st; simpl; [done|].
  rewrite IH, colorStep_bg.
  destruct (stringToBg !! s) as [c|]; simpl; [|done].
  rewrite last_cons. by destruct (last _).
Qed.

Lemma last_omap_None (tbl : gmap string Z) l :
  last (omap (tbl !!.) l) = None → Forall (λ u, tbl !! u = None) l.
Proof.
  induction l as [|s l IH]; simpl; [done|].
  destruct (tbl !! s) as [c|] eqn:Hs.
  - rewrite last_cons. by destruct (last _).
  - intros Hl. constructor; auto.
Qed.

Lemma colorPass_fg_subset l1 l2 :
  (∀ s, s ∈ l1 → s ∈ l2) → fg (firstPass (l1 ++ l2)) = fg (firstPass l2).
Proof.
  intros Hsub. unfold firstPass. rewrite foldl_app, !colorPass_fg_val.
  destruct (last (omap (stringToFg !!.) l2)) as [c|] eqn:Hlast; [done|].
  apply last_omap_None in Hlast. rewrite Forall_forall in Hlast.
  assert (last (omap (stringToFg !!.) l1) = None) as ->; [|done].
  destruct (last (omap (stringToFg !!.) l1)) as [c|] eqn:Hl1; [|done].
  apply last_Some_elem_of, list_elem_of_omap in Hl1 as (s & Hs & Hc).
  rewrite (Hlast s) in Hc by auto. done.
Qed.

Lemma colorPass_bg_subset l1 l2 :
  (∀ s, s ∈ l1 → s ∈ l2) → bg (firstPass (l1 ++ l2)) = bg (firstPass l2).
Proof.
  intros Hsub. unfold firstPass. rewrite foldl_app, !colorPass_bg_val.
  destruct (last (omap (stringToBg !!.) l2)) as [c|] eqn:Hlast; [done|].
  apply last_omap_None in Hlast. rewrite Forall_forall in Hlast.
  assert (last (omap (stringToBg !!.) l1) = None) as ->; [|done].
  destruct (last (omap (stringToBg !!.) l1)) as [c|] eqn:Hl1; [|done].
  apply last_Some_elem_of, list_elem_of_omap in Hl1 as (s & Hs & Hc).
  rewrite (Hlast s) in Hc by auto. done.
Qed.

(** X1: when every constant of termbox is a 16-bit value, so are both
    attributes of every style the resolver returns: or-ing emphasis onto a
    colour never leaves the range of [termbox.Attribute]. *)
Theorem stringsToStyle_range (raw : list string) :
  TermboxRange →
  0 ≤ fg (stringsToStyle raw) < 2 ^ 16 ∧ 0 ≤ bg (stringsToStyle raw) < 2 ^ 16.
Proof.
  intros Hrange. rewrite stringsToStyle_fg, stringsToStyle_bg. split.
  - apply lor_range.
    + apply (range_color Hrange), firstPass_fg_colors.
    + apply (range_emphasis Hrange), stringToFgAttr_values.
  - apply lor_range.
    + apply (range_color Hrange), firstPass_bg_colors.
    + apply (range_emphasis Hrange), stringToBgAttr_values.
Qed.

(** X2: an emphasis token shows in the result wherever it stands in the
    sequence: the bits its table gives it are set in the foreground, resp.
    background, of the returned style, whatever colour tokens come before
    or after it. *)
Theorem emphasis_token_sets_bits (raw : list string) (s : string) (a : Attribute) :
  s ∈ raw →
  (stringToFgAttr !! s = Some a → Z.land (fg (stringsToStyle raw)) a = a) ∧
  (stringToBgAttr !! s = Some a → Z.land (bg (stringsToStyle raw)) a = a).
Proof.
  intros Hin. split; intros Hs.
  - rewrite stringsToStyle_fg. by apply lor_keeps_bits_r, (emphasis_has_bits _ s).
  - rewrite stringsToStyle_bg. by apply lor_keeps_bits_r, (emphasis_has_bits _ s).
Qed.

(** X3: tokens that occur again later in the sequence are redundant:
    putting in front of a sequence any tokens it already contains does not
    change the style; in particular a sequence written twice resolves as
    written once. *)
Theorem repeated_tokens_redundant (l1 l2 : list string) :
  (∀ s, s ∈ l1 → s ∈ l2) →
  stringsToStyle (l1 ++ l2) = stringsToStyle l2.
Proof.
  intros Hsub. apply Style_eq.
  - rewrite !stringsToStyle_fg, colorPass_fg_subset, emphasis_app by done.
    by rewrite emphasis_subset.
  - rewrite !stringsToStyle_bg, colorPass_bg_subset, emphasis_app by done.
    by rewrite emphasis_subset.
Qed.

End StyleFurther.

Section TableSymmetry.
Context `{Termbox}.

(** The cases of a lookup that succeeds in a table, the key being the
    name [s] behind a prefix: one goal per entry, [s] replaced. *)
Ltac entry_cases H :=
  apply elem_of_list_to_map_2 in H;
  repeat (apply elem_of_cons in H as [H|H];
          [cbv [String.append] in H; simplify_eq|]);
  [..|by apply elem_of_nil in H].

Lemma stringToBg_on s : stringToBg !! ("on_" +:+ s) = stringToFg !! s.
Proof.
  destruct (stringToFg !! s) as [c|] eqn:Hfg.
  - table_cases Hfg; reflexivity.
  - destruct (stringToBg !! ("on_" +:+ s)) as [c|] eqn:Hbg; [|done].
    entry_cases Hbg; vm_compute in Hfg; discriminate Hfg.
Qed.

Lemma stringToFg_on s : stringToFg !! ("on_" +:+ s) = None.
Proof.
  destruct (stringToFg !! ("on_" +:+ s)) as [c|] eqn:Hfg; [|done].
  entry_cases Hfg.
Qed.

Lemma colorStep_on st s :
  colorStep st ("on_" +:+ s) = mkStyle (fg st) (default (bg st) (stringToFg !! s)).
Proof.
  apply Style_eq; simpl.
  - by rewrite colorStep_fg, stringToFg_on.
  - by rewrite colorStep_bg, stringToBg_on.
Qed.

Lemma colorPass_on raw st st' :
  bg st = fg st' →
  foldl colorStep st (String.append "on_" <$> raw)
  = mkStyle (fg st) (fg (foldl colorStep st' raw)).
Proof.
  revert st st'. induction raw as [|s raw IH]; intros st st' Hbg.
  - simpl. rewrite <- Hbg. by destruct st.
  - rewrite fmap_cons. cbn [foldl].
    rewrite (IH _ (colorStep st' s)); rewrite colorStep_on; simpl; [done|].
    by rewrite colorStep_fg, Hbg.
Qed.

(** X4: the background table is the foreground table under the prefix
    "on_": the name "on_" followed by [s] is a background colour exactly
    when [s] is a foreground colour, and then the same one; it is never a
    foreground colour.  So putting "on_" in front of every token of a
    sequence moves the colour the first loop finds from the foreground to
    the background. *)
Theorem on_prefix_mirrors (raw : list string) (s : string) :
  stringToBg !! ("on_" +:+ s) = stringToFg !! s ∧
  stringToFg !! ("on_" +:+ s) = None ∧
  firstPass (String.append "on_" <$> raw)
  = mkStyle ColorDefault (fg (firstPass raw)).
Proof.
  split_and!.
  - apply stringToBg_on.
  - apply stringToFg_on.
  - unfold firstPass. by rewrite (colorPass_on raw defaultStyle defaultStyle).
Qed.

(** Each default style of [NewStyleSet] is the style of a token
    sequence, so the defaults can be written in a configuration file:
    decoding the object that spells them, onto any configuration, sets the
    style set to [NewStyleSet], reports no error and changes nothing
    else. *)
Example defaults_are_decodable (c : Config) :
  NewStyleSet =
    mkStyleSet (stringsToStyle []) (stringsToStyle ["black"; "bold"; "on_cyan"])
      (stringsToStyle ["underline"; "on_magenta"]) (stringsToStyle [])
      (stringsToStyle ["cyan"]) ∧
  Decode (Wellformed (JObject [("Style", defaultStyleObject)])) c =
    (mkConfig (Action c) (Keymap c) (Matcher c) NewStyleSet (CustomMatcher c) (Prompt c),
     None).
Proof. split; reflexivity. Qed.

End TableSymmetry.

Lemma termbox_go_range : @TermboxRange termbox_go.
Proof.
  unfold TermboxRange. simpl.
  repeat (constructor; [by vm_compute|]). constructor.
Qed.

Lemma stringsToStyle_range_witness :
  0 ≤ fg (@stringsToStyle termbox_go ["white"; "bold"; "underline"; "blink"]) < 2 ^ 16 ∧
  0 ≤ bg (@stringsToStyle termbox_go ["white"; "bold"; "underline"; "blink"]) < 2 ^ 16.
Proof. apply (@stringsToStyle_range termbox_go), termbox_go_range. Defined.

Lemma emphasis_token_sets_bits_witness :
  Z.land (fg (@stringsToStyle termbox_go ["blink"; "red"])) 2048 = 2048.
Proof.
  apply (proj1 (@emphasis_token_sets_bits termbox_go ["blink"; "red"] "blink" 2048
                  ltac:(set_solver))).
  reflexivity.
Defined.

Lemma repeated_tokens_redundant_witness :
  @stringsToStyle termbox_go (["bold"; "red"] ++ ["red"; "on_blue"; "bold"])
  = @stringsToStyle termbox_go ["red"; "on_blue"; "bold"].
Proof.
  apply (@repeated_tokens_redundant termbox_go).
  intros s Hs. set_unfold in Hs. set_unfold.
  destruct Hs as [->|[->|[]]]; repeat first [by left | right].
Defined.

(** * Further properties of decoding *)

Lemma findField_fold {F} (fields : list F) (name : F → string) k f :
  findField fields name k = Some f → foldName k = foldName (name f).
Proof.
  unfold findField. intros Hfind.
  destruct (List.find (λ f, bool_decide (name f = k)) fields) as [f'|] eqn:Hexact.
  - injection Hfind as ->. apply find_some in Hexact as [_ Hname].
    apply bool_decide_eq_true in Hname. by rewrite Hname.
  - apply find_some in Hfind as [_ Hname].
    by apply bool_decide_eq_true in Hname.
Qed.

Lemma Config_findField k f :
  findField Config_fields Config_name k = Some f ↔
  foldName k = foldName (Config_name f).
Proof.
  split; [apply findField_fold|]. intros Hk. unfold findField.
  destruct (List.find (λ f, bool_decide (Config_name f = k)) Config_fields)
    as [f'|] eqn:Hexact.
  - apply find_some in Hexact as [_ Hname].
    apply bool_decide_eq_true in Hname. subst k. f_equal.
    destruct f', f; vm_compute in Hk; try discriminate Hk; reflexivity.
  - rewrite Hk. by destruct f.
Qed.


Lemma decode_fields_unknown {T F} (fields : list F) name store kvs (x : T) saved :
  Forall (λ kv, findField fields name kv.1 = None) kvs →
  decode_fields fields name store kvs x saved = (x, saved, None).
Proof.
  induction 1 as [|[k v] kvs Hk _ IH]; simpl in *; [done|]. by rewrite Hk.
Qed.

Lemma decode_entries_other {V} (zero : V) elem kvs m saved k :
  k ∉ kvs.*1 → (decode_entries zero elem kvs m saved).1 !! k = m !! k.
Proof.
  revert m saved. induction kvs as [|[k' v] kvs IH]; intros m saved Hk; simpl; [done|].
  rewrite fmap_cons in Hk. apply not_elem_of_cons in Hk as [Hne Hk]. simpl in Hne.
  destruct (elem v zero saved) as [x saved1].
  rewrite IH by done. by apply lookup_insert_ne.
Qed.

Lemma decode_entries_present {V} (zero : V) elem kvs m saved k :
  k ∈ kvs.*1 ∨ is_Some (m !! k) →
  is_Some ((decode_entries zero elem kvs m saved).1 !! k).
Proof.
  revert m saved. induction kvs as [|[k' v] kvs IH]; intros m saved Hk; simpl.
  - destruct Hk as [Hk|Hk]; [by apply elem_of_nil in Hk|done].
  - destruct (elem v zero saved) as [x saved1]. apply IH.
    destruct (decide (k = k')) as [->|Hne].
    + right. rewrite lookup_insert_eq. eauto.
    + destruct Hk as [Hk|Hk].
      * rewrite fmap_cons in Hk. apply elem_of_cons in Hk as [Hk|Hk]; [done|by left].
      * right. by rewrite lookup_insert_ne.
Qed.

Section DecodeFurther.
Context `{Termbox}.

Lemma StyleSet_store_frame f g v x saved :
  g ≠ f → slot g (StyleSet_store f v x saved).1.1 = slot g x.
Proof.
  intros Hne. destruct f; simpl;
    match goal with |- context [UnmarshalJSON ?s v] => destruct (UnmarshalJSON s v) end;
    by destruct g.
Qed.

Lemma decode_StyleSet_frame g kvs x saved :
  absentSlot g kvs →
  slot g (decode_fields StyleSet_fields StyleSet_name StyleSet_store kvs x saved).1.1
  = slot g x.
Proof.
  intros Habs. revert x saved.
  induction Habs as [|[k v] kvs Hk _ IH]; intros x saved; simpl in *; [done|].
  destruct (findField StyleSet_fields StyleSet_name k) as [f|]; [|apply IH].
  assert (g ≠ f) as Hne by congruence.
  pose proof (StyleSet_store_frame f g v x saved Hne) as Hstore.
  destruct (StyleSet_store f v x saved) as [[x1 saved1] [e|]]; simpl in *; [done|].
  by rewrite IH.
Qed.



(** X7: members whose key is no field name, even ignoring case, are
    skipped without an error: a document made of such members only is
    read successfully and leaves the configuration as it was. *)
Theorem unknown_keys_ignored (open : string → document + error)
    (filename : string) (kvs : list (string * json)) (c : Config) :
  open filename = inl (Wellformed (JObject kvs)) →
  Forall (λ kv, ∀ f, foldName kv.1 ≠ foldName (Config_name f)) kvs →
  ReadFilename open c filename = (c, None).
Proof.
  intros Hopen Hkeys. rewrite (ReadFilename_opened _ _ _ _ Hopen).
  unfold Decode, decode_Config, decode_struct.
  rewrite decode_fields_unknown; [done|].
  eapply Forall_impl; [exact Hkeys|]. intros [k v] Hk. simpl in *.
  destruct (findField Config_fields Config_name k) as [f|] eqn:Hfind; [|done].
  apply Config_findField in Hfind. by destruct (Hk f).
Qed.

(** X8: a style slot that no key of the "Style" member selects keeps its
    value, whether or not the decoding of the other slots succeeds, and
    whatever kind of value the member is. *)
Theorem unnamed_slots_kept (open : string → document + error)
    (filename : string) (v : json) (c : Config) (g : StyleSetField) :
  open filename = inl (Wellformed (JObject [("Style", v)])) →
  (∀ skvs, v = JObject skvs → absentSlot g skvs) →
  slot g (Style' (ReadFilename open c filename).1) = slot g (Style' c).
Proof.
  intros Hopen Habs. rewrite (ReadFilename_opened _ _ _ _ Hopen).
  unfold Decode, decode_Config, decode_struct.
  change (decode_fields Config_fields Config_name Config_store [("Style", v)] c None)
    with (let '(x, saved, err) := Config_store FStyle v c None in
          match err with Some e => (x, saved, Some e) | None => (x, saved, None) end).
  unfold Config_store, decode_StyleSet, decode_struct.
  destruct v; simpl; try done.
  pose proof (decode_StyleSet_frame g kvs (Style' c) None (Habs kvs eq_refl)) as Hframe.
  by destruct decode_fields as [[x saved] [e|]].
Qed.


(** X10: a "Keymap" object is stored into the map the configuration
    already has: afterwards every key of the object is bound, and every
    other key is bound as before. *)
Theorem keymap_entries_kept (open : string → document + error)
    (filename : string) (kvs : list (string * json)) (c : Config) :
  open filename = inl (Wellformed (JObject [("Keymap", JObject kvs)])) →
  ∃ m', Keymap (ReadFilename open c filename).1 = Some m' ∧
        (∀ k, k ∈ kvs.*1 → is_Some (m' !! k)) ∧
        (∀ k, k ∉ kvs.*1 → m' !! k = map_index (Keymap c) k).
Proof.
  intros Hopen. rewrite (ReadFilename_opened _ _ _ _ Hopen).
  unfold Decode, decode_Config, decode_struct.
  change (decode_fields Config_fields Config_name Config_store
            [("Keymap", JObject kvs)] c None)
    with (let '(x, saved, err) := Config_store FKeymap (JObject kvs) c None in
          match err with Some e => (x, saved, Some e) | None => (x, saved, None) end).
  unfold Config_store, decode_map.
  pose proof (decode_entries_present "" decode_string kvs (default ∅ (Keymap c)) None)
    as Hpresent.
  pose proof (decode_entries_other "" decode_string kvs (default ∅ (Keymap c)) None)
    as Hother.
  destruct (decode_entries "" decode_string kvs (default ∅ (Keymap c)) None)
    as [m' saved]. simpl in *.
  exists m'. split_and!; [done|by auto|].
  intros k Hk. rewrite Hother by done. by destruct (Keymap c).
Qed.

End DecodeFurther.


Lemma unknown_keys_ignored_witness :
  @ReadFilename termbox_go
    (λ _, inl (Wellformed (JObject [("Prompts", JString "> "); ("Matchers", JNull)])))
    (@NewConfig termbox_go) "config.json"
  = (@NewConfig termbox_go, None).
Proof.
  apply (@unknown_keys_ignored termbox_go _ _
           [("Prompts", JString "> "); ("Matchers", JNull)]); [reflexivity|].
  repeat constructor; intros f; destruct f; vm_compute; discriminate.
Defined.

Lemma unnamed_slots_kept_witness :
  slot FSelected (Style' (@ReadFilename termbox_go
    (λ _, inl (Wellformed (JObject [("Style", JObject [("Basic", JString "red")])])))
    (@NewConfig termbox_go) "config.json").1)
  = slot FSelected (Style' (@NewConfig termbox_go)).
Proof.
  apply (@unnamed_slots_kept termbox_go _ _ (JObject [("Basic", JString "red")]));
    [reflexivity|].
  intros skvs [= <-]. repeat constructor. vm_compute. discriminate.
Defined.


Lemma keymap_entries_kept_witness :
  ∃ m', Keymap (@ReadFilename termbox_go
          (λ _, inl (Wellformed (JObject [("Keymap", JObject [("C-n", JString "peco.SelectNext")])])))
          (mkConfig None (Some {[ "C-p" := "peco.SelectPrevious" ]}) "IgnoreCase"
             (@NewStyleSet termbox_go) None "QUERY>") "config.json").1 = Some m' ∧
        (∀ k, k ∈ [("C-n", JString "peco.SelectNext")].*1 → is_Some (m' !! k)) ∧
        (∀ k, k ∉ [("C-n", JString "peco.SelectNext")].*1 →
              m' !! k = map_index (Some {[ "C-p" := "peco.SelectPrevious" ]}) k).
Proof.
  apply (@keymap_entries_kept termbox_go _ "config.json"
           [("C-n", JString "peco.SelectNext")]). reflexivity.
Defined.

(** * Further properties of the search *)

Lemma firstExisting_Some w files file :
  firstExisting w files = Some file →
  ∃ pre post, files = (pre ++ file :: post)%list ∧
              attempted w files = (pre ++ [file])%list ∧
              Forall (λ f, stat w f ≠ None) pre ∧ stat w file = None.
Proof.
  unfold firstExisting. induction files as [|f files IH]; simpl; [done|].
  destruct (stat w f) as [e|] eqn:Hf; simpl.
  - intros Hfind. destruct (IH Hfind) as (pre & post & -> & -> & Hpre & Hfile).
    exists (f :: pre), post. split_and!; try done.
    constructor; [by rewrite Hf|done].
  - intros [= <-]. exists [], files. by split_and!.
Qed.

Lemma firstExisting_is_Some w files :
  is_Some (firstExisting w files) ↔ ∃ f, f ∈ files ∧ stat w f = None.
Proof.
  split.
  - intros [file Hfile].
    destruct (firstExisting_Some _ _ _ Hfile) as (pre & post & -> & _ & _ & Hstat).
    exists file. split; [|done]. apply elem_of_app. right. by left.
  - intros (f & Hf & Hstat).
    destruct (firstExisting w files) as [file|] eqn:Hnone; [by eauto|].
    exfalso. revert Hnone. unfold firstExisting.
    induction files as [|g files IH]; [by apply elem_of_nil in Hf|]. simpl.
    apply elem_of_cons in Hf as [<-|Hf].
    + by rewrite Hstat.
    + destruct (bool_decide (stat w g = None)); [done|auto].
Qed.

Lemma Split_nonempty s sep : Split s sep ≠ [].
Proof.
  destruct s as [|c rest]; simpl; [done|].
  destruct (decide (c = sep)); [done|]. by destruct (Split rest sep).
Qed.

Lemma concat_cons_nonempty sep x l :
  l ≠ [] → String.concat sep (x :: l) = x +:+ sep +:+ String.concat sep l.
Proof. by destruct l. Qed.

Lemma Split_concat s sep : String.concat (String sep "") (Split s sep) = s.
Proof.
  induction s as [|c rest IH]; simpl; [done|].
  destruct (decide (c = sep)) as [->|Hne].
  - rewrite concat_cons_nonempty by apply Split_nonempty. simpl. by rewrite IH.
  - destruct (Split rest sep) as [|x xs] eqn:Hsplit; [by destruct (Split_nonempty rest sep)|].
    rewrite <- IH. by destruct xs.
Qed.

Lemma Split_no_sep s sep : Forall (λ e, sep ∉ bytes e) (Split s sep).
Proof.
  induction s as [|c rest IH]; simpl.
  - repeat constructor. apply not_elem_of_nil.
  - destruct (decide (c = sep)) as [->|Hne].
    + constructor; [apply not_elem_of_nil|done].
    + pose proof (Split_nonempty rest sep) as Hsplit.
      destruct (Split rest sep) as [|x xs]; [done|].
      inversion IH as [|?? Hx Hxs]; subst. constructor; [|done].
      simpl. intros Hin. apply elem_of_cons in Hin as [Hin|Hin]; [by subst|done].
Qed.


Lemma attempted_withHomedir r w files :
  attempted (withHomedir r w) files = attempted w files.
Proof. induction files as [|f files IH]; simpl; [done|]. by rewrite IH. Qed.

Lemma firstExisting_withHomedir r w files :
  firstExisting (withHomedir r w) files = firstExisting w files.
Proof. reflexivity. Qed.

Section SearchFurther.
Context `{Filepath}.

(** X11: a path [LocateRcfile] returns is a candidate that exists, and
    the files it looked at are the candidates before it, none of which
    exists, followed by the path itself: the first existing candidate in
    the search order wins and nothing is looked at after it. *)
Theorem LocateRcfile_found (w : World) (file : string) (t : list Event) :
  LocateRcfile w = (file, None, t) →
  ∃ pre post, candidates w = (pre ++ file :: post)%list ∧
              stats t = (pre ++ [file])%list ∧
              Forall (λ f, stat w f ≠ None) pre ∧ stat w file = None.
Proof.
  rewrite LocateRcfile_run. intros [= Hresult <-].
  rewrite stats_searchTrace. unfold searchResult in Hresult.
  destruct (firstExisting w (candidates w)) as [f|] eqn:Hfirst; [|done].
  injection Hresult as ->. by apply firstExisting_Some.
Qed.

(** X12: [LocateRcfile] succeeds exactly when some candidate exists; when
    it fails, the result is the empty path with the error "Config file not
    found", never the error of [os.Stat] or of [homedir]. *)
Theorem LocateRcfile_succeeds_iff (w : World) :
  ((LocateRcfile w).1.2 = None ↔ ∃ f, f ∈ candidates w ∧ stat w f = None) ∧
  ((LocateRcfile w).1.2 ≠ None →
   (LocateRcfile w).1 = ("", Some (Errorf "error: Config file not found"))).
Proof.
  rewrite LocateRcfile_run. unfold searchResult. cbn [fst].
  rewrite <- firstExisting_is_Some.
  destruct (firstExisting w (candidates w)) as [f|]; simpl.
  - split; [|done]. split; eauto.
  - split; [|done]. split; [done|]. by intros [??].
Qed.

(** X13: as soon as [XDG_CONFIG_HOME] is set, the default location
    [.config/peco] under the home directory is out of the search, even
    when the directory the variable names has no configuration: with
    [XDG_CONFIG_DIRS] unset, only that directory and then [.peco] under
    the home directory are looked at. *)
Theorem XDG_CONFIG_HOME_replaces_default (w : World) (home : string) :
  environ w "XDG_CONFIG_HOME" ≠ "" →
  environ w "XDG_CONFIG_DIRS" = "" →
  homedir w = (home, None) →
  stat w (Join [Join [environ w "XDG_CONFIG_HOME"; "peco"]; basename]) ≠ None →
  stats (LocateRcfile w).2 =
    [Join [Join [environ w "XDG_CONFIG_HOME"; "peco"]; basename];
     Join [Join [home; ".peco"]; basename]].
Proof.
  intros Hxdg Hdirs Hhome Hstat. rewrite LocateRcfile_run. cbn [snd].
  rewrite stats_searchTrace. unfold candidates, step1or2, step3, step4.
  rewrite Hdirs, Hhome, decide_True by done. simpl.
  destruct (stat w (Join [Join [environ w "XDG_CONFIG_HOME"; "peco"]; basename]));
    [|done].
  by destruct (stat w (Join [Join [home; ".peco"]; basename])).
Qed.

(** X14: a failure of [homedir] is silently ignored: neither the error
    nor the string returned with it influences the search, which then
    only goes through the directories named by the environment; with both
    variables unset it fails without looking at any file. *)
Theorem homedir_failure_ignored (w : World) (home : string) (e : error) :
  homedir w = (home, Some e) →
  (∀ home' e', LocateRcfile (withHomedir (home', Some e') w) = LocateRcfile w) ∧
  (environ w "XDG_CONFIG_HOME" = "" → environ w "XDG_CONFIG_DIRS" = "" →
   LocateRcfile w =
     ("", Some (Errorf "error: Config file not found"),
      [EvHomedir; EvGetenv "XDG_CONFIG_HOME"; EvGetenv "XDG_CONFIG_DIRS"])).
Proof.
  intros Hhome. split.
  - intros home' e'. rewrite !LocateRcfile_run.
    unfold searchResult, searchTrace, candidates, step1or2, step3, step4.
    simpl. rewrite Hhome.
    by rewrite !(firstExisting_withHomedir (home', Some e')),
               !(attempted_withHomedir (home', Some e')).
  - intros Hxdg Hdirs. rewrite LocateRcfile_run.
    unfold searchResult, searchTrace, candidates, step1or2, step3, step4.
    by rewrite Hhome, Hxdg, Hdirs.
Qed.

End SearchFurther.

(** X15: the entries [LocateRcfile] gets from [XDG_CONFIG_DIRS] are
    exactly the pieces between the separators: there is at least one, none
    contains the separator, and joined by the separator they give the
    value of the variable back. *)
Theorem Split_entries (s : string) (sep : ascii) :
  Split s sep ≠ [] ∧
  Forall (λ e, sep ∉ bytes e) (Split s sep) ∧
  String.concat (String sep "") (Split s sep) = s.
Proof.
  split_and!; [apply Split_nonempty|apply Split_no_sep|apply Split_concat].
Qed.


Lemma LocateRcfile_found_witness :
  let w := unixWorld "" "/etc/xdg:/opt/etc" ["/opt/etc/peco/config.json"; "/home/u/.peco/config.json"] in
  ∃ pre post,
    @candidates unix w = (pre ++ "/opt/etc/peco/config.json" :: post)%list ∧
    stats [EvHomedir; EvGetenv "XDG_CONFIG_HOME"; EvStat "/home/u/.config/peco/config.json";
           EvGetenv "XDG_CONFIG_DIRS"; EvStat "/etc/xdg/peco/config.json";
           EvStat "/opt/etc/peco/config.json"]
      = (pre ++ ["/opt/etc/peco/config.json"])%list ∧
    Forall (λ f, stat w f ≠ None) pre ∧ stat w "/opt/etc/peco/config.json" = None.
Proof.
  intros w. apply (@LocateRcfile_found unix w). reflexivity.
Defined.

Lemma LocateRcfile_succeeds_iff_witness :
  (@LocateRcfile unix (unixWorld "" "" ["/home/u/.peco/config.json"])).1.2 = None.
Proof.
  apply (proj1 (@LocateRcfile_succeeds_iff unix
                  (unixWorld "" "" ["/home/u/.peco/config.json"]))).
  exists "/home/u/.peco/config.json". split; [|reflexivity].
  apply elem_of_app. right. apply elem_of_app. right. by left.
Defined.

Lemma XDG_CONFIG_HOME_replaces_default_witness :
  stats (@LocateRcfile unix
           (unixWorld "/tmp/a" "" ["/home/u/.config/peco/config.json"])).2
  = ["/tmp/a/peco/config.json"; "/home/u/.peco/config.json"].
Proof.
  apply (@XDG_CONFIG_HOME_replaces_default unix
           (unixWorld "/tmp/a" "" ["/home/u/.config/peco/config.json"]) "/home/u").
  - discriminate.
  - reflexivity.
  - reflexivity.
  - discriminate.
Defined.

Lemma homedir_failure_ignored_witness :
  @LocateRcfile unix
    (withHomedir ("", Some (Errorf "user: Current not implemented")) (unixWorld "" "" []))
  = ("", Some (Errorf "error: Config file not found"),
     [EvHomedir; EvGetenv "XDG_CONFIG_HOME"; EvGetenv "XDG_CONFIG_DIRS"]).
Proof.
  apply (proj2 (@homedir_failure_ignored unix
                  (withHomedir ("", Some (Errorf "user: Current not implemented"))
                     (unixWorld "" "" []))
                  "" (Errorf "user: Current not implemented") eq_refl));
    reflexivity.
Defined.

Lemma Split_entries_witness :
  String.concat ":" (Split "/etc/xdg::/opt/etc" ":") = "/etc/xdg::/opt/etc".
Proof. apply (proj2 (proj2 (Split_entries "/etc/xdg::/opt/etc" ":"))). Defined.


Lemma attempted_elem w files f : f ∈ attempted w files → f ∈ files.
Proof.
  induction files as [|g files IH]; simpl; [done|].
  destruct (stat w g); intros Hin; apply elem_of_cons in Hin as [->|Hin];
    try (by left); [right; auto|by apply elem_of_nil in Hin].
Qed.

(** X17: [LocateRcfile] touches nothing but what the search is about:
    the only environment variables it reads are [XDG_CONFIG_HOME] and
    [XDG_CONFIG_DIRS], and every file it looks at is one of the
    candidates. *)
Theorem LocateRcfile_consults_only `{Filepath} (w : World) :
  (∀ key, reads key (LocateRcfile w).2 →
     key = "XDG_CONFIG_HOME" ∨ key = "XDG_CONFIG_DIRS") ∧
  (∀ f, f ∈ stats (LocateRcfile w).2 → f ∈ candidates w).
Proof.
  rewrite LocateRcfile_run. cbn [snd]. split.
  - intros key. unfold reads, searchTrace. intros Hin.
    apply elem_of_app in Hin as [Hin|Hin].
    { set_unfold in Hin. destruct Hin as [|[[= ->]|[]]]; [done|by left]. }
    apply elem_of_app in Hin as [Hin|Hin].
    { apply list_elem_of_fmap_1 in Hin as (f & Hf & _). discriminate Hf. }
    destruct (firstExisting w (step1or2 w)); [by apply elem_of_nil in Hin|].
    apply elem_of_cons in Hin as [[= ->]|Hin]; [by right|].
    apply list_elem_of_fmap_1 in Hin as (f & Hf & _). discriminate Hf.
  - intros f. rewrite stats_searchTrace. apply attempted_elem.
Qed.

Lemma LocateRcfile_consults_only_witness :
  "/etc/xdg/peco/config.json" ∈ @candidates unix (unixWorld "" "/etc/xdg" []).
Proof.
  apply (proj2 (@LocateRcfile_consults_only unix (unixWorld "" "/etc/xdg" []))).
  vm_compute. right. left.
Defined.

(** * The styles that can be written *)

Lemma flag_orb x y a : flag (x || y) a = Z.lor (flag x a) (flag y a).
Proof. destruct x, y; simpl; by rewrite ?Z.lor_diag, ?Z.lor_0_r. Qed.

Lemma bool_decide_elem_cons (k s : string) raw :
  bool_decide (k ∈ s :: raw) = bool_decide (s = k) || bool_decide (k ∈ raw).
Proof.
  destruct (decide (s = k)) as [->|Hne].
  - rewrite (bool_decide_eq_true_2 (k = k)) by done. simpl.
    apply bool_decide_eq_true_2. by left.
  - rewrite (bool_decide_eq_false_2 (s = k)) by done. simpl.
    apply bool_decide_ext. rewrite elem_of_cons. split; [|by right].
    by intros [Heq|Hin].
Qed.

Section Expressible.
Context `{Termbox}.

Lemma fgAttr_value s :
  default 0 (stringToFgAttr !! s) =
  Z.lor (flag (bool_decide (s = "bold")) AttrBold)
    (Z.lor (flag (bool_decide (s = "underline")) AttrUnderline)
       (flag (bool_decide (s = "blink")) AttrReverse)).
Proof.
  destruct (stringToFgAttr !! s) as [a|] eqn:Hs.
  - table_cases Hs; cbn; by rewrite ?Z.lor_0_r.
  - rewrite !bool_decide_eq_false_2; [done|..];
      intros ->; vm_compute in Hs; discriminate Hs.
Qed.

Lemma bgAttr_value s :
  default 0 (stringToBgAttr !! s) = flag (bool_decide (s = "blink")) AttrBold.
Proof.
  destruct (stringToBgAttr !! s) as [a|] eqn:Hs.
  - table_cases Hs. reflexivity.
  - rewrite bool_decide_eq_false_2; [done|].
    intros ->; vm_compute in Hs; discriminate Hs.
Qed.

Lemma emphasis_fg_flags raw :
  emphasis stringToFgAttr raw =
  Z.lor (flag (bool_decide ("bold" ∈ raw)) AttrBold)
    (Z.lor (flag (bool_decide ("underline" ∈ raw)) AttrUnderline)
       (flag (bool_decide ("blink" ∈ raw)) AttrReverse)).
Proof.
  induction raw as [|s raw IH].
  - rewrite !bool_decide_eq_false_2 by apply not_elem_of_nil. reflexivity.
  - cbn [emphasis foldr]. fold (emphasis stringToFgAttr raw).
    rewrite IH, fgAttr_value, !bool_decide_elem_cons, !flag_orb.
    generalize (flag (bool_decide (s = "bold")) AttrBold)
               (flag (bool_decide (s = "underline")) AttrUnderline)
               (flag (bool_decide (s = "blink")) AttrReverse)
               (flag (bool_decide ("bold" ∈ raw)) AttrBold)
               (flag (bool_decide ("underline" ∈ raw)) AttrUnderline)
               (flag (bool_decide ("blink" ∈ raw)) AttrReverse).
    intros a1 a2 a3 b1 b2 b3. bitwise.
Qed.

Lemma emphasis_bg_flags raw :
  emphasis stringToBgAttr raw = flag (bool_decide ("blink" ∈ raw)) AttrBold.
Proof.
  induction raw as [|s raw IH].
  - rewrite bool_decide_eq_false_2 by apply not_elem_of_nil. reflexivity.
  - cbn [emphasis foldr]. fold (emphasis stringToBgAttr raw).
    by rewrite IH, bgAttr_value, bool_decide_elem_cons, flag_orb.
Qed.

Lemma colors_named c : c ∈ colors → ∃ n, stringToFg !! n = Some c.
Proof.
  unfold colors. intros Hc. set_unfold in Hc.
  destruct Hc as [->|[->|[->|[->|[->|[->|[->|[->|[->|[]]]]]]]]]];
    [exists "default"|exists "black"|exists "red"|exists "green"|exists "yellow"
    |exists "blue"|exists "magenta"|exists "cyan"|exists "white"]; reflexivity.
Qed.

End Expressible.

Section ExpressibleStyles.
Context `{Termbox}.

Ltac prefixed_cases H :=
  apply elem_of_list_to_map_2 in H;
  repeat (apply elem_of_cons in H as [H|H];
          [cbv [String.append] in H; simplify_eq|]);
  [..|by apply elem_of_nil in H].

Lemma color_name_only n c :
  stringToFg !! n = Some c →
  stringToBg !! n = None ∧ stringToFgAttr !! n = None ∧ stringToBgAttr !! n = None.
Proof. intros Hn. table_cases Hn; by split_and!. Qed.

Lemma on_name_no_attr n :
  stringToFgAttr !! ("on_" +:+ n) = None ∧ stringToBgAttr !! ("on_" +:+ n) = None.
Proof.
  split.
  - destruct (stringToFgAttr !! ("on_" +:+ n)) as [a|] eqn:Hn; [|done].
    prefixed_cases Hn.
  - destruct (stringToBgAttr !! ("on_" +:+ n)) as [a|] eqn:Hn; [|done].
    prefixed_cases Hn.
Qed.

Lemma emphasis_one tbl s : emphasis tbl [s] = default 0 (tbl !! s).
Proof. unfold emphasis. cbn [foldr]. apply Z.lor_0_r. Qed.

Lemma emphasis_choice tbl (b : bool) s :
  emphasis tbl (if b then [s] else []) = flag b (default 0 (tbl !! s)).
Proof. destruct b; [apply emphasis_one|reflexivity]. Qed.

Lemma spell_colors n1 n2 c1 c2 b u r :
  stringToFg !! n1 = Some c1 → stringToFg !! n2 = Some c2 →
  firstPass (spell n1 n2 b u r) = mkStyle c1 c2.
Proof.
  intros Hn1 Hn2. unfold firstPass, spell. rewrite foldl_app. cbn [foldl].
  rewrite colorStep_on, Hn2.
  destruct (color_name_only n1 c1 Hn1) as (Hbg1 & _ & _).
  assert (colorStep defaultStyle n1 = mkStyle c1 ColorDefault) as ->.
  { apply Style_eq; [by rewrite colorStep_fg, Hn1|by rewrite colorStep_bg, Hbg1]. }
  cbn [fg bg default from_option id].
  assert (Forall (λ s, ¬ isColor s)
            ((if b then ["bold"] else []) ++ (if u then ["underline"] else []) ++
             (if r then ["blink"] else []))%list) as Hrest.
  { assert (∀ s, s ∈ ["bold"; "underline"; "blink"] → ¬ isColor s) as Hno.
    { intros s Hs Hcol. apply (bool_decide_pack _) in Hcol.
      set_unfold in Hs. destruct Hs as [->|[->|[->|[]]]]; vm_compute in Hcol; exact Hcol. }
    destruct b, u, r; repeat constructor; apply Hno; set_unfold; tauto. }
  induction Hrest as [|s rest Hs _ IH]; [done|].
  cbn [foldl]. by rewrite colorStep_other.
Qed.

Lemma spell_emphasis_fg n1 n2 c1 b u r :
  stringToFg !! n1 = Some c1 →
  emphasis stringToFgAttr (spell n1 n2 b u r) =
  Z.lor (flag b AttrBold) (Z.lor (flag u AttrUnderline) (flag r AttrReverse)).
Proof.
  intros Hn1. destruct (color_name_only n1 c1 Hn1) as (_ & Hfa1 & _).
  destruct (on_name_no_attr n2) as [Hfa2 _].
  unfold spell. rewrite !emphasis_app, !emphasis_choice.
  unfold emphasis at 1. cbn [foldr]. rewrite Hfa1, Hfa2.
  change (stringToFgAttr !! "bold") with (Some AttrBold).
  change (stringToFgAttr !! "underline") with (Some AttrUnderline).
  change (stringToFgAttr !! "blink") with (Some AttrReverse).
  reflexivity.
Qed.

Lemma spell_emphasis_bg n1 n2 c1 b u r :
  stringToFg !! n1 = Some c1 →
  emphasis stringToBgAttr (spell n1 n2 b u r) = flag r AttrBold.
Proof.
  intros Hn1. destruct (color_name_only n1 c1 Hn1) as (_ & _ & Hba1).
  destruct (on_name_no_attr n2) as [_ Hba2].
  unfold spell. rewrite !emphasis_app, !emphasis_choice.
  unfold emphasis at 1. cbn [foldr]. rewrite Hba1, Hba2.
  change (stringToBgAttr !! "bold") with (@None Z).
  change (stringToBgAttr !! "underline") with (@None Z).
  change (stringToBgAttr !! "blink") with (Some AttrBold).
  by destruct b, u.
Qed.

Lemma stringsToStyle_spell n1 n2 c1 c2 b u r :
  stringToFg !! n1 = Some c1 → stringToFg !! n2 = Some c2 →
  stringsToStyle (spell n1 n2 b u r) =
    mkStyle
      (Z.lor c1 (Z.lor (flag b AttrBold) (Z.lor (flag u AttrUnderline) (flag r AttrReverse))))
      (Z.lor c2 (flag r AttrBold)).
Proof.
  intros Hn1 Hn2. apply Style_eq.
  - by rewrite stringsToStyle_fg, (spell_colors n1 n2 c1 c2),
               (spell_emphasis_fg n1 n2 c1).
  - by rewrite stringsToStyle_bg, (spell_colors n1 n2 c1 c2),
               (spell_emphasis_bg n1 n2 c1).
Qed.

(** X5: the styles that token sequences can name.  Every style the
    resolver returns is a colour with any of bold, underline and reverse
    on the foreground, and a colour on the background that carries bold
    exactly when the foreground carries reverse, both coming from "blink";
    and every such combination is the style of some sequence. *)
Theorem expressible_styles :
  (∀ raw, ∃ c1 c2 b u r,
     c1 ∈ colors ∧ c2 ∈ colors ∧
     stringsToStyle raw =
       mkStyle
         (Z.lor c1 (Z.lor (flag b AttrBold)
                      (Z.lor (flag u AttrUnderline) (flag r AttrReverse))))
         (Z.lor c2 (flag r AttrBold))) ∧
  (∀ c1 c2 b u r, c1 ∈ colors → c2 ∈ colors →
     ∃ raw,
       stringsToStyle raw =
         mkStyle
           (Z.lor c1 (Z.lor (flag b AttrBold)
                        (Z.lor (flag u AttrUnderline) (flag r AttrReverse))))
           (Z.lor c2 (flag r AttrBold))).
Proof.
  split.
  - intros raw.
    exists (fg (firstPass raw)), (bg (firstPass raw)),
      (bool_decide ("bold" ∈ raw)), (bool_decide ("underline" ∈ raw)),
      (bool_decide ("blink" ∈ raw)).
    split_and!; [apply firstPass_fg_colors|apply firstPass_bg_colors|].
    apply Style_eq; simpl.
    + by rewrite stringsToStyle_fg, emphasis_fg_flags.
    + by rewrite stringsToStyle_bg, emphasis_bg_flags.
  - intros c1 c2 b u r Hc1 Hc2.
    destruct (colors_named c1 Hc1) as [n1 Hn1].
    destruct (colors_named c2 Hc2) as [n2 Hn2].
    exists (spell n1 n2 b u r). by apply stringsToStyle_spell.
Qed.

End ExpressibleStyles.

Lemma expressible_styles_witness :
  ∃ raw, @stringsToStyle termbox_go raw = mkStyle (Z.lor 7 (Z.lor 512 2048)) (Z.lor 3 512).
Proof.
  apply (proj2 (@expressible_styles termbox_go) 7 3 true false true).
  - unfold colors. simpl. set_unfold. tauto.
  - unfold colors. simpl. set_unfold. tauto.
Defined.
